(** * The data-migration worker (src/v/cluster/data_migration_worker.cc)

    A shallow embedding of [cluster::data_migrations::worker]: the per-shard
    manager of partition-scoped migration work.  The worker keeps a map of
    managed NTPs; every member function of the class is a function on an
    explicit worker state.  A failing [vassert] aborts the process and is
    modelled by the [AssertFailed] outcome of the [result] monad.

    What the worker talks to is kept in the state as well:
    - the partition leaders table (leader lookup, leadership watchers),
    - the promises handed out to callers of [perform_partition_work],
      recorded as the sequence of values ever set on each promise,
    - the seastar gate holding the actions spawned in the background.

    The worker runs on one shard, so its member functions run one at a time
    up to their suspension points; what interleaves are the events of the
    transition system [step]: calls of the public interface, leadership
    notifications, and completions of spawned actions.

    When an action completes is up to the scheduler and the action.  The
    continuation attached in [spawn_work_if_leader] runs inside that very
    call when the future of the action is already resolved (as it is for
    the placeholder bodies, which return a ready future), and at a later
    point otherwise.  [handle_operation_result] and
    [handle_leadership_update] do nothing after the spawn, so for them a
    completion inside the call is the event [finish_task] right after it.
    [perform_partition_work] reads its iterator after the spawn, so there
    the completions inside the call are part of the call ([complete_inline]).

    [stop] is a coroutine that suspends at [co_await _gate.close()].  The
    function [stop] is the call up to that suspension point; [stop_waits]
    is the wait, during which the other events of the worker go on, and
    [stop_completes] the whole call, which returns once the gate has
    drained.  [stop_undisturbed] is the call during whose wait nothing
    happens but the completions of the actions in the gate; it is the event
    [ev_stop] of the transition system, so that the states of [reachable]
    are those of a worker whose calls of [stop] were left undisturbed;
    [attainable] are all the states of a worker, those during and after a
    disturbed [stop] included. *)

From stdpp Require Import gmap strings list fin_maps.
From Equations Require Import Equations.

(** ** Identifiers and enumerations *)

(** [model::node_id], [model::term_id], [notification_id_type] and
    [data_migrations::id] are integer identifiers. *)
Abbreviation node_id := Z (only parsing).
Abbreviation term_id := Z (only parsing).
Abbreviation notification_id_type := nat (only parsing).
Abbreviation id := Z (only parsing).

(** [model::ntp]: namespace, topic, partition index. *)
Record ntp : Type := mk_ntp {
  ns : string;
  tp : string;
  partition : Z
}.

Global Instance ntp_eq_dec : EqDecision ntp.
Proof. solve_decision. Defined.

Global Instance ntp_countable : Countable ntp.
Proof.
  refine (inj_countable'
            (fun n => (ns n, tp n, partition n))
            (fun t => mk_ntp t.1.1 t.1.2 t.2) _).
  by intros [].
Defined.

(** Modelled from the spec: the enumeration [state] of
    cluster/data_migration_types.h, which is not part of the sources at hand;
    its members are the states of the spec's successor table. *)
Inductive state : Type :=
| planned | preparing | prepared | executing | executed
| finishing | cut_over | finished | cancelled.

Global Instance state_eq_dec : EqDecision state.
Proof. solve_decision. Defined.

(** Modelled from the spec: the error codes of errc.h the worker and the
    spec's taxonomy name; every other code of the enumeration is
    [other_errc] with its numeric value. *)
Inductive errc : Type :=
| success
| shutting_down
| invalid_data_migration_state
| partition_operation_failed
| transport_failure
| proposal_rejected
| other_errc (code : Z).

Global Instance errc_eq_dec : EqDecision errc.
Proof. solve_decision. Defined.

(** ** Partition work *)

(** Modelled from the spec: the two payload types of
    cluster/data_migration_types.h.  The worker never looks inside them
    ([std::ignore = pwi]). *)
Record inbound_partition_work_info : Type :=
  { inbound_payload : string }.
Record outbound_partition_work_info : Type :=
  { outbound_payload : string }.

(** [partition_work_info] is a [std::variant] of the two. *)
Inductive partition_work_info : Type :=
| inbound_info (pwi : inbound_partition_work_info)
| outbound_info (pwi : outbound_partition_work_info).

(** Modelled from the spec: [partition_work], declared in
    cluster/data_migration_types.h, is
    [{ migration_id, sought_state, info }]. *)
Record partition_work : Type := mk_partition_work {
  migration_id : id;
  sought_state : state;
  info : partition_work_info
}.

(** ** The result monad: a value, or a failed [vassert] *)

Inductive result (A : Type) : Type :=
| Ok (a : A)
| AssertFailed (msg : string).
Arguments Ok {A} a.
Arguments AssertFailed {A} msg.

Global Instance result_ret : MRet result := fun A a => Ok a.
Global Instance result_bind : MBind result := fun A B f r =>
  match r with
  | Ok a => f a
  | AssertFailed msg => AssertFailed msg
  end.

Definition vassert (cond : bool) (msg : string) : result unit :=
  if cond then Ok tt else AssertFailed msg.

(** ** Promises

    A promise is a shared cell ([ss::lw_shared_ptr<ss::promise<errc>>]).
    The heap of promises records, for every promise ever made, the values
    set on it, oldest first.  A promise is unresolved while its record is
    empty. *)

Abbreviation promise_ref := nat (only parsing).

Definition make_promise (ps : list (list errc)) : promise_ref * list (list errc) :=
  (length ps, ps ++ [[]]).

Definition set_value (p : promise_ref) (ec : errc) (ps : list (list errc))
  : list (list errc) :=
  alter (fun vs => vs ++ [ec]) p ps.

(** ** The partition leaders table *)

(** Modelled from the spec: [partition_leaders_table] lives in
    partition_leaders_table.h/.cc, outside the sources at hand.  The worker
    uses three members: the leader lookup, and the registration and removal
    of a leadership-change watcher, each registration tagged with a fresh
    opaque id. *)
Record partition_leaders_table : Type := mk_leaders {
  leader_of : gmap ntp node_id;
  watchers : gmap notification_id_type ntp;
  next_notification_id : notification_id_type
}.

Definition get_leader (lt : partition_leaders_table) (n : ntp) : option node_id :=
  leader_of lt !! n.

Definition register_leadership_change_notification
    (n : ntp) (lt : partition_leaders_table)
  : notification_id_type * partition_leaders_table :=
  let nid := next_notification_id lt in
  (nid, mk_leaders (leader_of lt) (<[nid := n]> (watchers lt)) (S nid)).

Definition unregister_leadership_change_notification
    (nid : notification_id_type) (lt : partition_leaders_table)
  : partition_leaders_table :=
  mk_leaders (leader_of lt) (delete nid (watchers lt)) (next_notification_id lt).

(** ** Worker state *)

(** Modelled from the spec: [worker::ntp_state] is declared in
    cluster/data_migration_worker.h, which is not among the sources; the
    spec gives its fields,
    [{ is_leader, is_running, work, promise, leadership_subscription }].
    The constructor (in the .cc) sets [is_leader], [work] and
    [leadership_subscription]; the entry starts not running, with a promise
    of its own. *)
Record ntp_state : Type := mk_ntp_state {
  is_leader : bool;
  is_running : bool;
  work : partition_work;
  promise : promise_ref;
  leadership_subscription : notification_id_type
}.

(** What the continuation of a spawned action captured. *)
Record task : Type := mk_task {
  task_ntp : ntp;
  task_migration_id : id;
  task_sought_state : state
}.

(** The members of [worker] the code uses: [_self], [_leaders_table],
    [_managed_ntps] and [_gate], and with them the heap of promises.  The
    abort source and the operation timeout are never read by the code at
    hand. *)
Record worker : Type := mk_worker {
  self : node_id;
  leaders_table : partition_leaders_table;
  managed_ntps : gmap ntp ntp_state;
  promises : list (list errc);
  gate : list task;
  gate_closed : bool
}.

Definition set_leaders_table (lt : partition_leaders_table) (w : worker) : worker :=
  mk_worker (self w) lt (managed_ntps w) (promises w) (gate w) (gate_closed w).
Definition set_managed_ntps (m : gmap ntp ntp_state) (w : worker) : worker :=
  mk_worker (self w) (leaders_table w) m (promises w) (gate w) (gate_closed w).
Definition set_promises (ps : list (list errc)) (w : worker) : worker :=
  mk_worker (self w) (leaders_table w) (managed_ntps w) ps (gate w) (gate_closed w).
Definition set_gate (g : list task) (w : worker) : worker :=
  mk_worker (self w) (leaders_table w) (managed_ntps w) (promises w) g (gate_closed w).
Definition set_gate_closed (c : bool) (w : worker) : worker :=
  mk_worker (self w) (leaders_table w) (managed_ntps w) (promises w) (gate w) c.

Definition set_is_leader (b : bool) (st : ntp_state) : ntp_state :=
  mk_ntp_state b (is_running st) (work st) (promise st) (leadership_subscription st).
Definition set_is_running (b : bool) (st : ntp_state) : ntp_state :=
  mk_ntp_state (is_leader st) b (work st) (promise st) (leadership_subscription st).
Definition set_work (pw : partition_work) (st : ntp_state) : ntp_state :=
  mk_ntp_state (is_leader st) (is_running st) pw (promise st) (leadership_subscription st).
Definition set_promise (p : promise_ref) (st : ntp_state) : ntp_state :=
  mk_ntp_state (is_leader st) (is_running st) (work st) p (leadership_subscription st).

(** [worker::worker]: nothing managed, nothing spawned, gate open. *)
Definition new_worker (self_id : node_id) (leaders : partition_leaders_table) : worker :=
  mk_worker self_id leaders ∅ [] [] false.

(** ** Running an action: [worker::do_work] *)

(** How the body of an action ends: it returns a code or throws.  The bodies
    in the source are placeholders ("todo: perform action here") that return
    [success] at once, which is [stub_action]; the worker's own logic is
    written for any outcome. *)
Inductive outcome : Type :=
| returned (ec : errc)
| threw.

Definition stub_action : outcome := returned success.

(** [do_work(ntp, sought_state, const inbound_partition_work_info&)] up to the
    point where the action starts. *)
Definition do_work_inbound
    (n : ntp) (sought : state) (pwi : inbound_partition_work_info) : result unit :=
  vassert (bool_decide (sought = prepared))
          "inbound partition work requested towards another state".

(** [do_work(ntp, sought_state, const outbound_partition_work_info&)] up to
    the point where the action starts. *)
Definition do_work_outbound
    (n : ntp) (sought : state) (pwi : outbound_partition_work_info) : result unit :=
  match sought with
  | prepared => Ok tt
  | executed => Ok tt
  | _ => AssertFailed "outbound partition work requested towards another state"
  end.

(** The [std::visit] of [do_work(it)]: pick the overload by the kind of
    [info]. *)
Definition do_work_visit (n : ntp) (pw : partition_work) : result unit :=
  match info pw with
  | inbound_info pwi => do_work_inbound n (sought_state pw) pwi
  | outbound_info pwi => do_work_outbound n (sought_state pw) pwi
  end.

(** The [try]/[catch (...)] of [do_work(it)]. *)
Definition do_work_catch (action : outcome) : errc :=
  match action with
  | returned ec => ec
  | threw => partition_operation_failed
  end.

(** [do_work(it)] as a whole, for an action that ends as [action]. *)
Definition do_work (n : ntp) (st : ntp_state) (action : outcome) : result errc :=
  _ ← do_work_visit n (work st);
  mret (do_work_catch action).

(** ** Operations of the worker

    An iterator into [_managed_ntps] is the key it points at.  Every call
    site passes an iterator it has just obtained from [find] or [emplace];
    the branch for a key that is not in the map is never taken.  The one
    iterator that is used after the entry may have been erased is the one
    [perform_partition_work] reads the future off when it returns; that
    read is [future_at]. *)

(** [worker::unmanage_ntp] *)
Definition unmanage_ntp (it : ntp) (res : errc) (w : worker) : worker :=
  match managed_ntps w !! it with
  | None => w
  | Some st =>
      let lt := unregister_leadership_change_notification
                  (leadership_subscription st) (leaders_table w) in
      let ps := set_value (promise st) res (promises w) in
      mk_worker (self w) lt (delete it (managed_ntps w)) ps (gate w) (gate_closed w)
  end.

(** [worker::spawn_work_if_leader].  [ssx::spawn_with_gate]
    (ssx/future-util.h, not among the sources) enters the gate and runs the
    function given; a closed gate lets nothing in, and the attempt is
    dropped silently.  With the gate open [do_work] starts at once, so its
    assertion is checked here, and the action stays in the gate until it
    finishes. *)
Definition spawn_work_if_leader (it : ntp) (w : worker) : result worker :=
  match managed_ntps w !! it with
  | None => Ok w
  | Some st =>
      _ ← vassert (negb (is_running st)) "work already running";
      if negb (is_leader st) then Ok w
      else
        let st' := set_is_running true st in
        let w' := set_managed_ntps (<[it := st']> (managed_ntps w)) w in
        if gate_closed w' then Ok w'
        else
          _ ← do_work_visit it (work st');
          Ok (set_gate
                (gate w' ++ [mk_task it (migration_id (work st'))
                                        (sought_state (work st'))])
                w')
  end.

(** [worker::handle_operation_result] *)
Definition handle_operation_result
    (n : ntp) (mid : id) (sought : state) (ec : errc) (w : worker) : result worker :=
  match managed_ntps w !! n with
  | None => Ok w
  | Some st =>
      if bool_decide (migration_id (work st) ≠ mid)
         || bool_decide (sought_state (work st) ≠ sought)
      then Ok w
      else
        let w' := set_managed_ntps
                    (<[n := set_is_running false st]> (managed_ntps w)) w in
        if bool_decide (ec ≠ success) && bool_decide (ec ≠ shutting_down)
        then spawn_work_if_leader n w'
        else Ok (unmanage_ntp n ec w')
  end.

(** [worker::handle_leadership_update] *)
Definition handle_leadership_update
    (n : ntp) (leader : bool) (w : worker) : result worker :=
  match managed_ntps w !! n with
  | None => Ok w
  | Some st =>
      if bool_decide (is_leader st = leader) then Ok w
      else
        let st' := set_is_leader leader st in
        let w' := set_managed_ntps (<[n := st']> (managed_ntps w)) w in
        if negb (is_running st') then spawn_work_if_leader n w' else Ok w'
  end.

(** The callback [perform_partition_work] registers with the leaders table. *)
Definition leadership_callback
    (n : ntp) (term : term_id) (leader : node_id) (w : worker) : result worker :=
  handle_leadership_update n (bool_decide (self w = leader)) w.

(** A spawned action finishes: the continuation attached in
    [spawn_work_if_leader] passes the code [do_work] produced to
    [handle_operation_result], with the values captured at spawn time, and
    then the action leaves the gate. *)
Definition finish_task (i : nat) (action : outcome) (w : worker) : result worker :=
  match gate w !! i with
  | None => Ok w
  | Some t =>
      w' ← handle_operation_result
             (task_ntp t) (task_migration_id t) (task_sought_state t)
             (do_work_catch action) w;
      Ok (set_gate (delete i (gate w')) w')
  end.

(** The completions that happen inside a call: the action at position [k]
    of the gate ends as the head of [early], its continuation runs, and
    should it have spawned the action anew (which then sits at [k] in
    turn), the same goes on with the rest of [early]. *)
Fixpoint complete_inline (early : list outcome) (k : nat) (w : worker)
  : result worker :=
  match early with
  | [] => Ok w
  | action :: early' =>
      w' ← finish_task k action w;
      complete_inline early' k w'
  end.

(** What [perform_partition_work] hands back: the future of a promise, or
    what [it->second.promise->get_future()] yields when the entry [it]
    pointed at has been erased, which is undefined. *)
Inductive future : Type :=
| future_of (p : promise_ref)
| dangling.

(** The read of [it->second.promise] at the end of [perform_partition_work]. *)
Definition future_at (it : ntp) (w : worker) : future :=
  match managed_ntps w !! it with
  | Some st => future_of (promise st)
  | None => dangling
  end.

(** [worker::perform_partition_work].  [early] lists how the actions end that
    are over by the time their continuation is attached, so that the
    continuation runs inside the call: first the action spawned here, then,
    if that one is retried, the next one, and so on; with [early] empty the
    action spawned here is still running when the call returns. *)
Definition perform_partition_work
    (n : ntp) (pw : partition_work) (early : list outcome) (w : worker)
  : result (worker * future) :=
  let w1 :=
    match managed_ntps w !! n with
    | None =>
        let leader := bool_decide (Some (self w) = get_leader (leaders_table w) n) in
        let '(sub, lt) :=
          register_leadership_change_notification n (leaders_table w) in
        let '(p, ps) := make_promise (promises w) in
        mk_worker (self w) lt
                  (<[n := mk_ntp_state leader false pw p sub]> (managed_ntps w))
                  ps (gate w) (gate_closed w)
    | Some st =>
        let ps := set_value (promise st) invalid_data_migration_state (promises w) in
        let '(p, ps) := make_promise ps in
        let st' := set_work pw (set_is_running false (set_promise p st)) in
        mk_worker (self w) (leaders_table w)
                  (<[n := st']> (managed_ntps w))
                  ps (gate w) (gate_closed w)
    end in
  w2 ← spawn_work_if_leader n w1;
  w3 ← complete_inline early (length (gate w1)) w2;
  Ok (w3, future_at n w3).

(** [worker::abort_partition_work] *)
Definition abort_partition_work
    (n : ntp) (mid : id) (sought : state) (w : worker) : worker :=
  match managed_ntps w !! n with
  | Some st =>
      if bool_decide (migration_id (work st) = mid)
         && bool_decide (sought_state (work st) = sought)
      then unmanage_ntp n invalid_data_migration_state w
      else w
  | None => w
  end.

(** ** [worker::stop] *)

(** The entry [_managed_ntps.end() - 1] points at: the last one in the
    iteration order of the map. *)
Definition back (m : gmap ntp ntp_state) : option ntp :=
  fst <$> last (map_to_list m).

Lemma back_Some (m : gmap ntp ntp_state) (it : ntp) :
  back m = Some it → is_Some (m !! it).
Proof.
  unfold back. intros H.
  destruct (last (map_to_list m)) as [[k v]|] eqn:E; simplify_eq/=.
  exists v. by apply elem_of_map_to_list, last_Some_elem_of.
Qed.

Lemma back_None (m : gmap ntp ntp_state) : back m = None → m = ∅.
Proof.
  unfold back. intros H.
  destruct (last (map_to_list m)) eqn:E; simplify_eq/=.
  apply last_None in E. by apply map_to_list_empty_iff.
Qed.

(** The loop [while (!_managed_ntps.empty()) unmanage_ntp(end() - 1, ...)].
    Every round erases one entry, which is why the loop ends. *)
Equations? stop_loop (w : worker) : worker by wf (size (managed_ntps w)) lt :=
  stop_loop w with Equations.Prop.Logic.inspect (back (managed_ntps w)) := {
    | exist _ None _ => w
    | exist _ (Some it) Hit => stop_loop (unmanage_ntp it shutting_down w) }.
Proof.
  apply back_Some in Hit as [st Hst].
  unfold unmanage_ntp. rewrite Hst. simpl.
  rewrite map_size_delete, Hst. simpl.
  assert (size (managed_ntps w) ≠ 0); [|lia].
  intros E%map_size_empty_inv. rewrite E in Hst. done.
Qed.

(** The actions in the gate finish one after the other; [actions] tells how
    each of them ends, by its position in the order they finish. *)
Fixpoint await_actions
    (pending : list task) (actions : nat → outcome) (w : worker) : result worker :=
  match pending with
  | [] => Ok w
  | _ :: pending' =>
      w' ← finish_task 0 (actions (length pending')) w;
      await_actions pending' actions w'
  end.

(** The call [_gate.close()]: from now on the gate lets nothing in; the
    future it returns is resolved once the gate is empty. *)
Definition gate_close (w : worker) : worker := set_gate_closed true w.

(** [worker::stop] up to its suspension point: the loop, and the call that
    closes the gate unless it is closed already. *)
Definition stop (w : worker) : worker :=
  let w' := stop_loop w in
  if negb (gate_closed w') then gate_close w' else w'.

(** Whether [stop] has to wait at [co_await _gate.close()]. *)
Definition stop_suspends (w : worker) : bool :=
  negb (gate_closed (stop_loop w)).

(** [stop] resumes, and returns, when the gate has drained. *)
Definition gate_drained (w : worker) : Prop := gate w = [].

(** A call of [stop] during whose wait nothing happens but the completions
    of the actions that were in the gate. *)
Definition stop_undisturbed (actions : nat → outcome) (w : worker)
  : result worker :=
  if stop_suspends w
  then await_actions (gate (stop w)) actions (stop w)
  else Ok (stop w).

(** ** The worker as a transition system *)

(** What can happen to a worker: a call of its public interface, a
    leadership notification from the leaders table, a spawned action
    finishing, and the leaders table learning of a leader.  The event
    [ev_stop] is a call of [stop] that is not disturbed while it waits. *)
Inductive event : Type :=
| ev_perform (n : ntp) (pw : partition_work) (early : list outcome)
| ev_abort (n : ntp) (mid : id) (sought : state)
| ev_stop (actions : nat → outcome)
| ev_leadership (n : ntp) (term : term_id) (leader : node_id)
| ev_finish (i : nat) (action : outcome)
| ev_leader_changed (n : ntp) (leader : option node_id).

Definition update_leader
    (n : ntp) (leader : option node_id) (lt : partition_leaders_table)
  : partition_leaders_table :=
  mk_leaders (partial_alter (fun _ => leader) n (leader_of lt))
             (watchers lt) (next_notification_id lt).

Definition step (e : event) (w : worker) : result worker :=
  match e with
  | ev_perform n pw early => r ← perform_partition_work n pw early w; mret r.1
  | ev_abort n mid sought => Ok (abort_partition_work n mid sought w)
  | ev_stop actions => stop_undisturbed actions w
  | ev_leadership n term leader => leadership_callback n term leader w
  | ev_finish i action => finish_task i action w
  | ev_leader_changed n leader =>
      Ok (set_leaders_table (update_leader n leader (leaders_table w)) w)
  end.

(** [stop] while it waits at [co_await _gate.close()]: the events of the
    worker go on until the gate has drained, which is when [stop] resumes
    and returns. *)
Inductive stop_waits : worker → worker → Prop :=
| stop_resumes (w : worker) : gate_drained w → stop_waits w w
| stop_waits_on (w : worker) (e : event) (w1 w2 : worker) :
    ¬ gate_drained w → step e w = Ok w1 → stop_waits w1 w2 → stop_waits w w2.

(** A call of [stop] on [w] that returns in the state [w']. *)
Definition stop_completes (w w' : worker) : Prop :=
  if stop_suspends w then stop_waits (stop w) w' else w' = stop w.

(** The states of a worker whose calls of [stop] are left undisturbed: a
    freshly constructed worker over a leaders table whose watcher ids are
    all below its next id, and whatever an event leads to without tripping
    an assertion. *)
Definition leaders_wf (lt : partition_leaders_table) : Prop :=
  ∀ i n, watchers lt !! i = Some n → i < next_notification_id lt.

Inductive reachable : worker → Prop :=
| reachable_new (self_id : node_id) (lt : partition_leaders_table) :
    leaders_wf lt → reachable (new_worker self_id lt)
| reachable_step (w : worker) (e : event) (w' : worker) :
    reachable w → step e w = Ok w' → reachable w'.

(** [runs w w']: the worker gets from [w] to [w'] by events and by calls of
    [stop] that have run up to their suspension point, whatever happens
    while they wait. *)
Inductive runs : worker → worker → Prop :=
| runs_refl (w : worker) : runs w w
| runs_event (w : worker) (e : event) (w1 w2 : worker) :
    step e w = Ok w1 → runs w1 w2 → runs w w2
| runs_stop (w w2 : worker) : runs (stop w) w2 → runs w w2.

(** Every state a worker can be in, those during and after a disturbed
    [stop] included. *)
Definition attainable (w : worker) : Prop :=
  ∃ self_id lt, leaders_wf lt ∧ runs (new_worker self_id lt) w.

(** ** Vocabulary of the statements *)

(** The legal combinations of kind and sought state, as the specification
    lists them: inbound/prepared, outbound/prepared, outbound/executed. *)
Definition legal_work (pw : partition_work) : bool :=
  match info pw, sought_state pw with
  | inbound_info _, prepared => true
  | outbound_info _, prepared => true
  | outbound_info _, executed => true
  | _, _ => false
  end.

(** The codes that end an entry; every other code is retried. *)
Definition terminal (ec : errc) : bool :=
  bool_decide (ec = success) || bool_decide (ec = shutting_down).

(** The action [spawn_work_if_leader] puts into the gate for an entry. *)
Definition task_of (n : ntp) (st : ntp_state) : task :=
  mk_task n (migration_id (work st)) (sought_state (work st)).

(** Nothing has been set on promise [p] yet. *)
Definition unresolved (w : worker) (p : promise_ref) : Prop :=
  promises w !! p = Some [].

(** Exactly one value, [ec], has been set on promise [p]. *)
Definition resolved_once (w : worker) (p : promise_ref) (ec : errc) : Prop :=
  promises w !! p = Some [ec].

(** Watcher [nid] is registered for [n] with the leaders table. *)
Definition subscribed (w : worker) (nid : notification_id_type) (n : ntp) : Prop :=
  watchers (leaders_table w) !! nid = Some n.

Definition unsubscribed (w : worker) (nid : notification_id_type) : Prop :=
  watchers (leaders_table w) !! nid = None.

(** The bookkeeping invariant of the managed entries. *)
Record worker_inv (w : worker) : Prop := mk_worker_inv {
  inv_subscribed : ∀ n st,
    managed_ntps w !! n = Some st → subscribed w (leadership_subscription st) n;
  inv_unresolved : ∀ n st,
    managed_ntps w !! n = Some st → unresolved w (promise st);
  inv_promise_inj : ∀ n1 n2 st1 st2,
    managed_ntps w !! n1 = Some st1 → managed_ntps w !! n2 = Some st2 →
    promise st1 = promise st2 → n1 = n2;
  inv_leaders_wf : leaders_wf (leaders_table w)
}.

(** A closed gate holds no action between two events. *)
Definition gate_inv (w : worker) : Prop :=
  gate_closed w = true → gate w = [].

(** ** Vocabulary of the proofs *)

(** The two states [perform_partition_work] builds before it calls
    [spawn_work_if_leader]: a new entry emplaced, or a stale one reused. *)
Definition emplaced (n : ntp) (pw : partition_work) (w : worker) : worker :=
  mk_worker (self w)
    (register_leadership_change_notification n (leaders_table w)).2
    (<[n := mk_ntp_state
              (bool_decide (Some (self w) = get_leader (leaders_table w) n))
              false pw (length (promises w))
              (next_notification_id (leaders_table w))]> (managed_ntps w))
    (promises w ++ [[]]) (gate w) (gate_closed w).

Definition reused (n : ntp) (pw : partition_work) (st : ntp_state) (w : worker)
  : worker :=
  mk_worker (self w) (leaders_table w)
    (<[n := mk_ntp_state (is_leader st) false pw (length (promises w))
                         (leadership_subscription st)]> (managed_ntps w))
    (set_value (promise st) invalid_data_migration_state (promises w) ++ [[]])
    (gate w) (gate_closed w).

(** The gate during a call of [perform_partition_work] for [n] that found
    [k] actions in it: whatever sits at [k] was spawned for [n], and nothing
    sits behind it. *)
Definition inline_gate (n : ntp) (k : nat) (w : worker) : Prop :=
  length (gate w) ≤ S k ∧ ∀ t, gate w !! k = Some t → task_ntp t = n.

(** [w1] is what [perform_partition_work n pw] makes of [w] before it calls
    [spawn_work_if_leader]. *)
Definition prepared_by (n : ntp) (pw : partition_work) (w w1 : worker) : Prop :=
  (managed_ntps w !! n = None ∧ w1 = emplaced n pw w)
  ∨ (∃ st, managed_ntps w !! n = Some st ∧ w1 = reused n pw st w).

Definition returning (n : ntp) (early : list outcome) (k : nat) (w2 : worker)
  : result (worker * future) :=
  w3 ← complete_inline early k w2;
  Ok (w3, future_at n w3).

(** What [spawn_work_if_leader] makes of a worker whose entry [st1] at [n]
    is idle, when it returns: the entry is marked running if it leads, and
    its action enters the gate if moreover the gate is open. *)
Definition after_spawn (n : ntp) (st1 : ntp_state) (w1 : worker) : worker :=
  mk_worker (self w1) (leaders_table w1)
    (<[n := set_is_running (is_leader st1) st1]> (managed_ntps w1))
    (promises w1)
    (if is_leader st1 && negb (gate_closed w1)
     then gate w1 ++ [task_of n st1] else gate w1)
    (gate_closed w1).

(** An operation neither opens nor closes the gate, and adds nothing to a
    closed one. *)
Definition gate_frame (w w' : worker) : Prop :=
  gate_closed w' = gate_closed w ∧ (gate_closed w = true → gate w' = gate w).

(** Where an entry of the worker [w0] stands in a later state [w]: still
    managed as it was, or cancelled with [shutting_down]. *)
Definition kept_or_shut_down (w0 w : worker) : Prop :=
  ∀ n st, managed_ntps w0 !! n = Some st →
    managed_ntps w !! n = Some st
    ∨ (managed_ntps w !! n = None
       ∧ resolved_once w (promise st) shutting_down
       ∧ unsubscribed w (leadership_subscription st)).

(** While the gate is open, an entry that leads or runs went through the
    assertions of [do_work], so its combination of kind and sought state is
    a legal one. *)
Definition dispatched_legal (st : ntp_state) : Prop :=
  is_leader st = true ∨ is_running st = true → legal_work (work st) = true.

Definition dispatch_inv (w : worker) : Prop :=
  gate_closed w = false →
  ∀ n st, managed_ntps w !! n = Some st → dispatched_legal st.

(** [dispatch_inv] with the entry at [it] left out. *)
Definition dispatch_inv_but (it : ntp) (w : worker) : Prop :=
  gate_closed w = false →
  ∀ n st, n ≠ it → managed_ntps w !! n = Some st → dispatched_legal st.

(** [steps w w']: some sequence of events leads from [w] to [w']. *)
Inductive steps : worker → worker → Prop :=
| steps_refl (w : worker) : steps w w
| steps_step (w : worker) (e : event) (w1 w2 : worker) :
    step e w = Ok w1 → steps w1 w2 → steps w w2.

(** Every entry of [w] that is missing from [w'] had its watcher removed
    and its promise resolved, once. *)
Definition properly_unmanaged (w w' : worker) : Prop :=
  ∀ n st, managed_ntps w !! n = Some st → managed_ntps w' !! n = None →
    unsubscribed w' (leadership_subscription st)
    ∧ ∃ ec, resolved_once w' (promise st) ec.

(** Where an entry [st] that the worker once managed for [n] stands: its
    watcher id has been given out, and either [n] is still managed under
    that watcher, with the promise of [st] or with that promise resolved, or
    the watcher is gone and the promise resolved. *)
Definition tracked (n : ntp) (st : ntp_state) (w : worker) : Prop :=
  leadership_subscription st < next_notification_id (leaders_table w)
  ∧ ((∃ st', managed_ntps w !! n = Some st'
             ∧ leadership_subscription st' = leadership_subscription st
             ∧ (promise st' = promise st
                ∨ ∃ ec, resolved_once w (promise st) ec))
     ∨ (unsubscribed w (leadership_subscription st)
        ∧ ∃ ec, resolved_once w (promise st) ec)).

(** The entry [st] has been cancelled by [stop]: its watcher is gone and
    its promise carries [shutting_down]. *)
Definition shut_down (st : ntp_state) (w : worker) : Prop :=
  leadership_subscription st < next_notification_id (leaders_table w)
  ∧ unsubscribed w (leadership_subscription st)
  ∧ resolved_once w (promise st) shutting_down.

(** ** Vocabulary of the further properties *)

Global Instance task_eq_dec : EqDecision task.
Proof. solve_decision. Defined.

(** The two messages of the assertions of [do_work]. *)
Definition dispatch_failure (msg : string) : Prop :=
  msg = "inbound partition work requested towards another state"
  ∨ msg = "outbound partition work requested towards another state".

(** A result that is a value, or else a failure of the dispatch assertion
    that comes with [illegal]. *)
Definition ok_or_dispatch {A : Type} (r : result A) (illegal : Prop) : Prop :=
  (∃ a, r = Ok a)
  ∨ (illegal ∧ ∃ msg, r = AssertFailed msg ∧ dispatch_failure msg).

(** Some entry of the worker carries work that is not a legal combination. *)
Definition illegal_entry (w : worker) : Prop :=
  ∃ n st, managed_ntps w !! n = Some st ∧ legal_work (work st) = false.

(** The work a call hands to the worker. *)
Definition submitted_by (e : event) (pw : partition_work) : Prop :=
  match e with
  | ev_perform _ pw' _ => pw = pw'
  | _ => False
  end.

(** Some work that is not a legal combination is around: in an entry of the
    worker, or in the call. *)
Definition illegal_work_present (e : event) (w : worker) : Prop :=
  (∃ n st, managed_ntps w !! n = Some st ∧ legal_work (work st) = false)
  ∨ (∃ pw, submitted_by e pw ∧ legal_work pw = false).



(** The elementary updates the operations are made of; [submitted] tells
    which work may enter the map. *)
Inductive update (submitted : partition_work → Prop) : worker → worker → Prop :=
| update_entry w n st st' :
    managed_ntps w !! n = Some st →
    promise st' = promise st →
    leadership_subscription st' = leadership_subscription st →
    work st' = work st →
    update submitted w (set_managed_ntps (<[n := st']> (managed_ntps w)) w)
| update_gate w g : update submitted w (set_gate g w)
| update_gate_closed w c : update submitted w (set_gate_closed c w)
| update_leaders w n leader :
    update submitted w
      (set_leaders_table (update_leader n leader (leaders_table w)) w)
| update_unmanage w it res st :
    managed_ntps w !! it = Some st →
    update submitted w (unmanage_ntp it res w)
| update_emplace w n pw :
    managed_ntps w !! n = None → submitted pw →
    update submitted w (emplaced n pw w)
| update_reuse w n pw st :
    managed_ntps w !! n = Some st → submitted pw →
    update submitted w (reused n pw st w).

(** Every promise of the heap is either unresolved and held by an entry, or
    has been set exactly once. *)
Definition promise_inv (w : worker) : Prop :=
  ∀ p vs, promises w !! p = Some vs →
    (vs = [] ∧ ∃ n st, managed_ntps w !! n = Some st ∧ promise st = p)
    ∨ (∃ ec, vs = [ec]).

(** The watchers of the leaders table, seen from the table [lt0] the worker
    was constructed with: those of [lt0] are all still there, every other
    one belongs to a managed entry, and the worker's own ids start where
    those of [lt0] end. *)
Record watchers_inv (lt0 : partition_leaders_table) (w : worker) : Prop :=
  mk_watchers_inv {
  wi_foreign : ∀ i n,
    watchers lt0 !! i = Some n → watchers (leaders_table w) !! i = Some n;
  wi_owned : ∀ i n,
    watchers (leaders_table w) !! i = Some n →
    watchers lt0 !! i = Some n
    ∨ ∃ st, managed_ntps w !! n = Some st ∧ leadership_subscription st = i;
  wi_above : ∀ n st,
    managed_ntps w !! n = Some st →
    next_notification_id lt0 ≤ leadership_subscription st;
  wi_next : next_notification_id lt0 ≤ next_notification_id (leaders_table w)
}.

(** While the gate is open, an entry marked running has an action in the
    gate that will report back with the entry's ids. *)
Definition running_inv (w : worker) : Prop :=
  gate_closed w = false →
  ∀ n st, managed_ntps w !! n = Some st → is_running st = true →
          task_of n st ∈ gate w.

(** [running_inv] with the entry at [it] left out. *)
Definition running_inv_but (it : ntp) (w : worker) : Prop :=
  gate_closed w = false →
  ∀ n st, n ≠ it → managed_ntps w !! n = Some st → is_running st = true →
          task_of n st ∈ gate w.

(** The NTPs an event is about: the one named in a call or a notification,
    the one of the action that finishes, all of them for [stop], none for a
    change of the leaders table. *)
Definition touches (e : event) (w : worker) (m : ntp) : Prop :=
  match e with
  | ev_perform n _ _ => m = n
  | ev_abort n _ _ => m = n
  | ev_stop _ => True
  | ev_leadership n _ _ => m = n
  | ev_finish i _ => ∃ t, gate w !! i = Some t ∧ task_ntp t = m
  | ev_leader_changed _ _ => False
  end.

(** ** Concrete workers used to exercise the statements *)

Definition ntp_orders : ntp := mk_ntp "kafka" "orders" 0.

Definition leaders_node1 : partition_leaders_table :=
  mk_leaders {[ ntp_orders := 1%Z ]} ∅ 0.

Definition inbound_prepare : partition_work :=
  mk_partition_work 7 prepared (inbound_info {| inbound_payload := "" |}).

Definition outbound_execute : partition_work :=
  mk_partition_work 8 executed (outbound_info {| outbound_payload := "" |}).

(** Node 1 leads the partition and has just been asked to prepare it. *)
Definition fresh_worker : worker := new_worker 1 leaders_node1.

Definition leading_entry : ntp_state := mk_ntp_state true true inbound_prepare 0 0.

Definition leading_worker : worker :=
  mk_worker 1
    (mk_leaders {[ ntp_orders := 1%Z ]} {[ 0 := ntp_orders ]} 1)
    {[ ntp_orders := leading_entry ]}
    [[]] [mk_task ntp_orders 7 prepared] false.

(** The worker after the replica was moved away while the work ran. *)
Definition aborted_worker : worker :=
  mk_worker 1 (mk_leaders {[ ntp_orders := 1%Z ]} ∅ 1) ∅
    [[invalid_data_migration_state]] [mk_task ntp_orders 7 prepared] false.

(** The worker after a shutdown while the work ran. *)
Definition stopped_worker : worker :=
  mk_worker 1 (mk_leaders {[ ntp_orders := 1%Z ]} ∅ 1) ∅
    [[shutting_down]] [] true.

(** The worker at the point where [stop] waits for the action to finish. *)
Definition stopping_worker : worker :=
  mk_worker 1 (mk_leaders {[ ntp_orders := 1%Z ]} ∅ 1) ∅
    [[shutting_down]] [mk_task ntp_orders 7 prepared] true.

(** The worker when that [stop] returns, after other work was performed on
    the partition while it waited. *)
Definition disturbed_worker : worker :=
  mk_worker 1 (mk_leaders {[ ntp_orders := 1%Z ]} {[ 1 := ntp_orders ]} 2)
    {[ ntp_orders := mk_ntp_state true true outbound_execute 1 1 ]}
    [[shutting_down]; []] [] true.

(** A stopped worker on node 2, which does not lead the partition, that was
    asked to prepare it. *)
Definition stopped_follower : worker :=
  mk_worker 2 (mk_leaders {[ ntp_orders := 1%Z ]} {[ 0 := ntp_orders ]} 1)
    {[ ntp_orders := mk_ntp_state false false inbound_prepare 0 0 ]}
    [[]] [] true.

(** The worker after the work of [leading_worker] was replaced and the new
    action succeeded inside the call: the earlier action is still in the
    gate. *)
Definition superseded_worker : worker :=
  mk_worker 1 (mk_leaders {[ ntp_orders := 1%Z ]} ∅ 1) ∅
    [[invalid_data_migration_state]; [success]]
    [mk_task ntp_orders 7 prepared] false.

(** Inbound work towards [executed], which is not a legal combination. *)
Definition inbound_execute : partition_work :=
  mk_partition_work 9 executed (inbound_info {| inbound_payload := "" |}).

(** * Lemmas *)

(** ** Promises *)

Lemma lookup_set_value_eq (ps : list (list errc)) p ec vs :
  ps !! p = Some vs → set_value p ec ps !! p = Some (vs ++ [ec]).
Proof. intros H. unfold set_value. by rewrite list_lookup_alter_eq, H. Qed.

Lemma lookup_set_value_ne (ps : list (list errc)) p q ec :
  p ≠ q → set_value p ec ps !! q = ps !! q.
Proof. intros H. unfold set_value. by rewrite list_lookup_alter_ne. Qed.

Lemma length_set_value (ps : list (list errc)) p ec :
  length (set_value p ec ps) = length ps.
Proof. unfold set_value. by rewrite length_alter. Qed.

Lemma lookup_make_promise_new (ps : list (list errc)) :
  (make_promise ps).2 !! (make_promise ps).1 = Some [].
Proof. simpl. by rewrite lookup_app_r, Nat.sub_diag. Qed.

Lemma lookup_make_promise_old (ps : list (list errc)) p vs :
  ps !! p = Some vs → (make_promise ps).2 !! p = Some vs ∧ p ≠ (make_promise ps).1.
Proof.
  intros H. simpl. pose proof (lookup_lt_Some _ _ _ H) as Hlt.
  split; [by rewrite lookup_app_l | lia].
Qed.

(** ** The dispatch of [do_work] *)

Lemma do_work_visit_legal n pw :
  legal_work pw = true → do_work_visit n pw = Ok tt.
Proof.
  unfold legal_work, do_work_visit, do_work_inbound, do_work_outbound.
  destruct (info pw), (sought_state pw); simpl; congruence.
Qed.

Lemma do_work_visit_illegal n pw :
  legal_work pw = false → ∃ msg, do_work_visit n pw = AssertFailed msg.
Proof.
  unfold legal_work, do_work_visit, do_work_inbound, do_work_outbound.
  destruct (info pw), (sought_state pw); simpl; try congruence; eauto.
Qed.

Lemma do_work_visit_Ok n pw u :
  do_work_visit n pw = Ok u → legal_work pw = true.
Proof.
  intros H. destruct (legal_work pw) eqn:E; [done|].
  destruct (do_work_visit_illegal n pw E) as [msg Hm]. congruence.
Qed.

Lemma do_work_visit_failure n pw msg :
  do_work_visit n pw = AssertFailed msg →
  dispatch_failure msg ∧ legal_work pw = false.
Proof.
  unfold do_work_visit, do_work_inbound, do_work_outbound, legal_work,
    dispatch_failure.
  destruct (info pw), (sought_state pw); simpl; intros [= <-]; auto.
Qed.

(** ** Preservation of the invariant *)

Lemma worker_inv_new self_id lt : leaders_wf lt → worker_inv (new_worker self_id lt).
Proof. intros Hlt. split; simpl; try done; intros *; by rewrite lookup_empty. Qed.

(** Changing the flags or the work of an entry keeps the bookkeeping. *)
Lemma worker_inv_update_entry w n st st' :
  worker_inv w → managed_ntps w !! n = Some st →
  promise st' = promise st →
  leadership_subscription st' = leadership_subscription st →
  worker_inv (set_managed_ntps (<[n := st']> (managed_ntps w)) w).
Proof.
  intros [Hs Hu Hi Hl] Hn Hp Hsub.
  split; unfold subscribed, unresolved in *; simpl; [| | |done].
  - intros m s. destruct (decide (n = m)) as [->|Hne].
    + rewrite lookup_insert_eq. intros [= <-]. rewrite Hsub. eauto.
    + rewrite lookup_insert_ne by done. eauto.
  - intros m s. destruct (decide (n = m)) as [->|Hne].
    + rewrite lookup_insert_eq. intros [= <-]. rewrite Hp. eauto.
    + rewrite lookup_insert_ne by done. eauto.
  - intros n1 n2 s1 s2.
    destruct (decide (n = n1)) as [<-|Hne1], (decide (n = n2)) as [<-|Hne2];
      rewrite ?lookup_insert_eq, ?lookup_insert_ne by done; try done.
    + intros [= <-] H2. rewrite Hp. eauto.
    + intros H1 [= <-]. rewrite Hp. eauto.
    + eauto.
Qed.

Lemma worker_inv_set_gate w g : worker_inv w → worker_inv (set_gate g w).
Proof. intros [Hs Hu Hi Hl]. by split. Qed.

Lemma worker_inv_set_gate_closed w c : worker_inv w → worker_inv (set_gate_closed c w).
Proof. intros [Hs Hu Hi Hl]. by split. Qed.

(** What [spawn_work_if_leader] does to an entry that is not running. *)
Lemma spawn_work_if_leader_idle it w st :
  managed_ntps w !! it = Some st → is_running st = false →
  spawn_work_if_leader it w =
    if is_leader st then
      let w' := set_managed_ntps
                  (<[it := set_is_running true st]> (managed_ntps w)) w in
      if gate_closed w then Ok w'
      else _ ← do_work_visit it (work st);
           Ok (set_gate (gate w ++ [task_of it st]) w')
    else Ok w.
Proof.
  intros Hit Hrun. unfold spawn_work_if_leader. rewrite Hit, Hrun. simpl.
  by destruct (is_leader st).
Qed.

Lemma worker_inv_spawn it w w' :
  worker_inv w → spawn_work_if_leader it w = Ok w' → worker_inv w'.
Proof.
  intros Hinv. unfold spawn_work_if_leader.
  destruct (managed_ntps w !! it) as [st|] eqn:Hit; [|by intros [= <-]].
  destruct (is_running st); simpl; [done|].
  destruct (is_leader st); simpl; [|by intros [= <-]].
  pose proof (worker_inv_update_entry w it st (set_is_running true st)
                Hinv Hit eq_refl eq_refl) as Hinv'.
  destruct (gate_closed w); [by intros [= <-]|].
  destruct (do_work_visit it (work st)); simpl; [|done].
  intros [= <-]. by apply worker_inv_set_gate.
Qed.

(** What [unmanage_ntp] does to a managed entry. *)
Lemma unmanage_ntp_managed it res w st :
  managed_ntps w !! it = Some st →
  unmanage_ntp it res w =
    mk_worker (self w)
      (unregister_leadership_change_notification
         (leadership_subscription st) (leaders_table w))
      (delete it (managed_ntps w))
      (set_value (promise st) res (promises w))
      (gate w) (gate_closed w).
Proof. intros H. unfold unmanage_ntp. by rewrite H. Qed.

Lemma worker_inv_unmanage it res w :
  worker_inv w → worker_inv (unmanage_ntp it res w).
Proof.
  intros Hinv. destruct (managed_ntps w !! it) as [st|] eqn:Hit.
  2:{ unfold unmanage_ntp. by rewrite Hit. }
  rewrite (unmanage_ntp_managed _ _ _ _ Hit).
  destruct Hinv as [Hs Hu Hi Hl].
  split; unfold subscribed, unresolved, leaders_wf in *; simpl.
  - intros m s Hm. apply lookup_delete_Some in Hm as [Hne Hm].
    rewrite lookup_delete_ne; [eauto|].
    intros E. apply Hne.
    pose proof (Hs _ _ Hit) as H1. pose proof (Hs _ _ Hm) as H2.
    rewrite E in H1. congruence.
  - intros m s Hm. apply lookup_delete_Some in Hm as [Hne Hm].
    rewrite lookup_set_value_ne; [eauto|].
    intros E. apply Hne. eauto.
  - intros n1 n2 s1 s2 H1 H2.
    apply lookup_delete_Some in H1 as [_ H1].
    apply lookup_delete_Some in H2 as [_ H2]. eauto.
  - intros i n Hi'. apply lookup_delete_Some in Hi' as [_ Hi']. eauto.
Qed.

Lemma worker_inv_handle_operation_result n mid sought ec w w' :
  worker_inv w → handle_operation_result n mid sought ec w = Ok w' → worker_inv w'.
Proof.
  intros Hinv. unfold handle_operation_result.
  destruct (managed_ntps w !! n) as [st|] eqn:Hn; [|by intros [= <-]].
  destruct (_ || _); [by intros [= <-]|].
  pose proof (worker_inv_update_entry w n st (set_is_running false st)
                Hinv Hn eq_refl eq_refl) as Hinv'.
  destruct (_ && _).
  - by apply worker_inv_spawn.
  - intros [= <-]. by apply worker_inv_unmanage.
Qed.

Lemma worker_inv_handle_leadership_update n leader w w' :
  worker_inv w → handle_leadership_update n leader w = Ok w' → worker_inv w'.
Proof.
  intros Hinv. unfold handle_leadership_update.
  destruct (managed_ntps w !! n) as [st|] eqn:Hn; [|by intros [= <-]].
  destruct (bool_decide _); [by intros [= <-]|].
  pose proof (worker_inv_update_entry w n st (set_is_leader leader st)
                Hinv Hn eq_refl eq_refl) as Hinv'.
  destruct (negb _).
  - by apply worker_inv_spawn.
  - by intros [= <-].
Qed.

Lemma worker_inv_abort n mid sought w :
  worker_inv w → worker_inv (abort_partition_work n mid sought w).
Proof.
  intros Hinv. unfold abort_partition_work.
  destruct (managed_ntps w !! n); [|done].
  destruct (_ && _); [|done]. by apply worker_inv_unmanage.
Qed.

Lemma worker_inv_finish_task i action w w' :
  worker_inv w → finish_task i action w = Ok w' → worker_inv w'.
Proof.
  intros Hinv. unfold finish_task.
  destruct (gate w !! i) as [t|]; [|by intros [= <-]].
  destruct (handle_operation_result _ _ _ _ w) as [w1|] eqn:H; [|done].
  simpl. intros [= <-]. apply worker_inv_set_gate.
  by eapply worker_inv_handle_operation_result.
Qed.

Lemma perform_partition_work_unmanaged n pw early w :
  managed_ntps w !! n = None →
  perform_partition_work n pw early w =
    w2 ← spawn_work_if_leader n (emplaced n pw w);
    returning n early (length (gate w)) w2.
Proof. intros H. unfold perform_partition_work. by rewrite H. Qed.

Lemma perform_partition_work_managed n pw early w st :
  managed_ntps w !! n = Some st →
  perform_partition_work n pw early w =
    w2 ← spawn_work_if_leader n (reused n pw st w);
    returning n early (length (gate w)) w2.
Proof.
  intros H. unfold perform_partition_work. rewrite H. simpl.
  unfold reused. by rewrite length_set_value.
Qed.

(** The stages of a call of [perform_partition_work] that returns. *)
Lemma perform_stages n pw early w w' f :
  perform_partition_work n pw early w = Ok (w', f) →
  ∃ w1 w2,
    prepared_by n pw w w1
    ∧ spawn_work_if_leader n w1 = Ok w2
    ∧ complete_inline early (length (gate w)) w2 = Ok w'
    ∧ f = future_at n w'.
Proof.
  destruct (managed_ntps w !! n) as [st|] eqn:Hn.
  - rewrite (perform_partition_work_managed _ _ _ _ _ Hn).
    destruct (spawn_work_if_leader n _) as [w2|] eqn:Hsp; [|done].
    simpl. unfold returning.
    destruct (complete_inline early _ w2) as [w3|] eqn:Hc; [|done].
    simpl. intros [= <- <-]. exists (reused n pw st w), w2.
    split_and!; try done. right. by exists st.
  - rewrite (perform_partition_work_unmanaged _ _ _ _ Hn).
    destruct (spawn_work_if_leader n _) as [w2|] eqn:Hsp; [|done].
    simpl. unfold returning.
    destruct (complete_inline early _ w2) as [w3|] eqn:Hc; [|done].
    simpl. intros [= <- <-]. exists (emplaced n pw w), w2.
    split_and!; try done. by left.
Qed.

(** A property kept by every completion at [k] is kept by the completions
    inside a call. *)
Lemma complete_inline_ind (P : worker → Prop) k :
  (∀ action w1 w2, P w1 → finish_task k action w1 = Ok w2 → P w2) →
  ∀ early w w', P w → complete_inline early k w = Ok w' → P w'.
Proof.
  intros Hone early. induction early as [|action early IH]; intros w w' HP; simpl.
  - by intros [= <-].
  - destruct (finish_task k action w) as [w1|] eqn:Hf; [|done]. simpl.
    apply IH. by eapply Hone.
Qed.

Lemma worker_inv_emplaced n pw w :
  worker_inv w → managed_ntps w !! n = None → worker_inv (emplaced n pw w).
Proof.
  intros [Hs Hu Hi Hl] Hn.
  split; unfold subscribed, unresolved, leaders_wf in *; simpl.
  - intros m s. destruct (decide (n = m)) as [<-|Hne].
    + rewrite lookup_insert_eq. intros [= <-]. simpl. by rewrite lookup_insert_eq.
    + rewrite lookup_insert_ne by done. intros Hm.
      pose proof (Hs _ _ Hm) as Hsub. pose proof (Hl _ _ Hsub).
      rewrite lookup_insert_ne by lia. done.
  - intros m s. destruct (decide (n = m)) as [<-|Hne].
    + rewrite lookup_insert_eq. intros [= <-]. simpl.
      by rewrite lookup_app_r, Nat.sub_diag.
    + rewrite lookup_insert_ne by done. intros Hm.
      pose proof (Hu _ _ Hm) as Hp. by rewrite lookup_app_l by by eapply lookup_lt_Some.
  - intros n1 n2 s1 s2.
    destruct (decide (n = n1)) as [<-|Hne1], (decide (n = n2)) as [<-|Hne2];
      rewrite ?lookup_insert_eq, ?lookup_insert_ne by done; try done.
    + intros [= <-] H2. simpl. intros E.
      pose proof (lookup_lt_Some _ _ _ (Hu _ _ H2)). lia.
    + intros H1 [= <-]. simpl. intros E.
      pose proof (lookup_lt_Some _ _ _ (Hu _ _ H1)). lia.
    + eauto.
  - intros i m. destruct (decide (next_notification_id (leaders_table w) = i)) as [<-|Hne].
    + lia.
    + rewrite lookup_insert_ne by done. intros H. pose proof (Hl _ _ H). lia.
Qed.

Lemma worker_inv_reused n pw st w :
  worker_inv w → managed_ntps w !! n = Some st → worker_inv (reused n pw st w).
Proof.
  intros [Hs Hu Hi Hl] Hn.
  split; unfold subscribed, unresolved, leaders_wf in *; simpl; [| | |done].
  - intros m s. destruct (decide (n = m)) as [<-|Hne].
    + rewrite lookup_insert_eq. intros [= <-]. simpl. eauto.
    + rewrite lookup_insert_ne by done. eauto.
  - intros m s. destruct (decide (n = m)) as [<-|Hne].
    + rewrite lookup_insert_eq. intros [= <-]. simpl.
      by rewrite lookup_app_r, length_set_value, Nat.sub_diag
        by (rewrite length_set_value; lia).
    + rewrite lookup_insert_ne by done. intros Hm.
      pose proof (Hu _ _ Hm) as Hp.
      rewrite lookup_app_l
        by (rewrite length_set_value; by eapply lookup_lt_Some).
      rewrite lookup_set_value_ne; [done|]. intros E. apply Hne. eauto.
  - intros n1 n2 s1 s2.
    destruct (decide (n = n1)) as [<-|Hne1], (decide (n = n2)) as [<-|Hne2];
      rewrite ?lookup_insert_eq, ?lookup_insert_ne by done; try done.
    + intros [= <-] H2. simpl. intros E.
      pose proof (lookup_lt_Some _ _ _ (Hu _ _ H2)). lia.
    + intros H1 [= <-]. simpl. intros E.
      pose proof (lookup_lt_Some _ _ _ (Hu _ _ H1)). lia.
    + eauto.
Qed.

Lemma worker_inv_prepared n pw w w1 :
  worker_inv w → prepared_by n pw w w1 → worker_inv w1.
Proof.
  intros Hinv [[Hn ->]|(st & Hn & ->)].
  - by apply worker_inv_emplaced.
  - by apply worker_inv_reused.
Qed.

Lemma worker_inv_perform n pw early w w' f :
  worker_inv w → perform_partition_work n pw early w = Ok (w', f) →
  worker_inv w'.
Proof.
  intros Hinv (w1 & w2 & Hprep & Hsp & Hc & _)%perform_stages.
  eapply (complete_inline_ind worker_inv); [|..|exact Hc].
  - intros action w3 w4 H3. by apply worker_inv_finish_task.
  - eapply worker_inv_spawn; [|exact Hsp]. by eapply worker_inv_prepared.
Qed.

(** ** The stop loop *)

Lemma stop_loop_eq w :
  stop_loop w =
    match back (managed_ntps w) with
    | None => w
    | Some it => stop_loop (unmanage_ntp it shutting_down w)
    end.
Proof.
  rewrite stop_loop_equation_1. unfold stop_loop_unfold_clause_1.
  simpl. by destruct (back (managed_ntps w)).
Qed.

(** An induction principle for the loop: a property that holds before,
    and survives every round, holds after. *)
Lemma stop_loop_ind (P : worker → Prop) :
  (∀ w it st, managed_ntps w !! it = Some st → P w →
              P (unmanage_ntp it shutting_down w)) →
  ∀ w, P w → P (stop_loop w) ∧ managed_ntps (stop_loop w) = ∅.
Proof.
  intros Hround w.
  remember (size (managed_ntps w)) as k eqn:Hk. revert w Hk.
  induction k as [k IH] using lt_wf_ind. intros w Hk HP.
  rewrite stop_loop_eq.
  destruct (back (managed_ntps w)) as [it|] eqn:Hb.
  - destruct (back_Some _ _ Hb) as [st Hst].
    eapply IH; [|done|by eapply Hround].
    rewrite (unmanage_ntp_managed _ _ _ _ Hst). simpl.
    rewrite map_size_delete, Hst. simpl. subst k.
    assert (size (managed_ntps w) ≠ 0); [|lia].
    intros E%map_size_empty_inv. rewrite E in Hst. done.
  - split; [done|]. by apply back_None.
Qed.

Lemma worker_inv_stop_loop w : worker_inv w → worker_inv (stop_loop w).
Proof.
  intros H. apply (stop_loop_ind worker_inv); [|done].
  intros. by apply worker_inv_unmanage.
Qed.

(** ** The gate *)

Lemma gate_frame_refl w : gate_frame w w.
Proof. by split. Qed.

Lemma gate_frame_trans w1 w2 w3 : gate_frame w1 w2 → gate_frame w2 w3 → gate_frame w1 w3.
Proof.
  intros [H1 H2] [H3 H4]. split; [congruence|].
  intros Hc. rewrite H4, H2; congruence.
Qed.

Lemma gate_frame_inv w w' : gate_frame w w' → gate_inv w → gate_inv w'.
Proof.
  intros [H1 H2] Hg Hc. rewrite H1 in Hc. rewrite H2 by done. by apply Hg.
Qed.

Lemma gate_frame_spawn it w w' : spawn_work_if_leader it w = Ok w' → gate_frame w w'.
Proof.
  unfold spawn_work_if_leader.
  destruct (managed_ntps w !! it) as [st|]; [|intros [= <-]; apply gate_frame_refl].
  destruct (is_running st); simpl; [done|].
  destruct (is_leader st); simpl; [|intros [= <-]; apply gate_frame_refl].
  destruct (gate_closed w) eqn:Hc; [intros [= <-]; by split|].
  destruct (do_work_visit it _); simpl; [|done].
  intros [= <-]. split; simpl; [done|congruence].
Qed.

Lemma gate_frame_unmanage it res w : gate_frame w (unmanage_ntp it res w).
Proof. unfold unmanage_ntp. destruct (managed_ntps w !! it); by split. Qed.

Lemma gate_frame_handle_operation_result n mid sought ec w w' :
  handle_operation_result n mid sought ec w = Ok w' → gate_frame w w'.
Proof.
  unfold handle_operation_result.
  destruct (managed_ntps w !! n) as [st|]; [|intros [= <-]; apply gate_frame_refl].
  destruct (_ || _); [intros [= <-]; apply gate_frame_refl|].
  destruct (_ && _).
  - intros H%gate_frame_spawn. destruct H as [H1 H2]. by split.
  - intros [= <-].
    eapply gate_frame_trans; [|apply gate_frame_unmanage]. by split.
Qed.

Lemma gate_frame_handle_leadership_update n leader w w' :
  handle_leadership_update n leader w = Ok w' → gate_frame w w'.
Proof.
  unfold handle_leadership_update.
  destruct (managed_ntps w !! n) as [st|]; [|intros [= <-]; apply gate_frame_refl].
  destruct (bool_decide _); [intros [= <-]; apply gate_frame_refl|].
  destruct (negb _).
  - intros H%gate_frame_spawn. destruct H as [H1 H2]. by split.
  - intros [= <-]. by split.
Qed.

Lemma gate_inv_finish_task i action w w' :
  gate_inv w → finish_task i action w = Ok w' → gate_inv w'.
Proof.
  intros Hg. unfold finish_task.
  destruct (gate w !! i) as [t|] eqn:Hi; [|by intros [= <-]].
  destruct (handle_operation_result _ _ _ _ w) as [w1|] eqn:H; [|done].
  apply gate_frame_handle_operation_result in H as [H1 H2].
  simpl. intros [= <-] Hc. simpl in Hc. rewrite H1 in Hc.
  rewrite Hg in Hi by done. done.
Qed.

Lemma gate_inv_perform n pw early w w' f :
  gate_inv w → perform_partition_work n pw early w = Ok (w', f) → gate_inv w'.
Proof.
  intros Hg (w1 & w2 & Hprep & Hsp & Hc & _)%perform_stages.
  eapply (complete_inline_ind gate_inv); [|..|exact Hc].
  - intros action w3 w4 H3. by apply gate_inv_finish_task.
  - eapply gate_frame_inv; [by eapply gate_frame_spawn|].
    by destruct Hprep as [[_ ->]|(st & _ & ->)].
Qed.

(** ** What [unmanage_ntp] and [stop] leave behind *)

Lemma unmanage_ntp_effect it res w st :
  worker_inv w → managed_ntps w !! it = Some st →
  let w' := unmanage_ntp it res w in
  managed_ntps w' = delete it (managed_ntps w)
  ∧ resolved_once w' (promise st) res
  ∧ unsubscribed w' (leadership_subscription st)
  ∧ (∀ p, p ≠ promise st → promises w' !! p = promises w !! p)
  ∧ (∀ i, i ≠ leadership_subscription st →
          watchers (leaders_table w') !! i = watchers (leaders_table w) !! i)
  ∧ gate w' = gate w ∧ gate_closed w' = gate_closed w ∧ self w' = self w.
Proof.
  intros Hinv Hit. simpl. rewrite (unmanage_ntp_managed _ _ _ _ Hit).
  unfold resolved_once, unsubscribed. simpl.
  split_and!; try done.
  - by rewrite (lookup_set_value_eq _ _ _ [])
      by by apply (inv_unresolved _ Hinv it).
  - by rewrite lookup_delete_eq.
  - intros p Hp. by rewrite lookup_set_value_ne.
  - intros i Hi. by rewrite lookup_delete_ne.
Qed.

Lemma stop_loop_effect w :
  worker_inv w →
  let w' := stop_loop w in
  managed_ntps w' = ∅
  ∧ gate w' = gate w ∧ gate_closed w' = gate_closed w
  ∧ ∀ n st, managed_ntps w !! n = Some st →
      resolved_once w' (promise st) shutting_down
      ∧ unsubscribed w' (leadership_subscription st).
Proof.
  intros Hinv. simpl.
  destruct (stop_loop_ind
    (fun w1 => worker_inv w1 ∧ gate w1 = gate w ∧ gate_closed w1 = gate_closed w
               ∧ kept_or_shut_down w w1)) with (w := w)
    as [(Hinv' & Hg & Hc & Hk) Hempty].
  - intros w1 it st_it Hit (Hinv1 & Hg & Hc & Hk).
    destruct (unmanage_ntp_effect it shutting_down w1 st_it Hinv1 Hit)
      as (Hm & Hr & Hu & Hps & Hws & Hg' & Hc' & _).
    split_and!; [by apply worker_inv_unmanage|congruence|congruence|].
    intros n st Hn. destruct (Hk n st Hn) as [Hkept|(Hgone & Hres & Hun)].
    + destruct (decide (it = n)) as [<-|Hne].
      * right. rewrite Hm, lookup_delete_eq.
        assert (st = st_it) as -> by congruence. done.
      * left. by rewrite Hm, lookup_delete_ne.
    + right. rewrite Hm. split_and!.
      * apply lookup_delete_None. by right.
      * unfold resolved_once in *. rewrite Hps; [done|].
        intros E. pose proof (inv_unresolved _ Hinv1 _ _ Hit) as Hunres.
        unfold unresolved in Hunres. congruence.
      * unfold unsubscribed in *.
        destruct (decide (leadership_subscription st = leadership_subscription st_it))
          as [E|Hne]; [by rewrite E|]. by rewrite Hws.
  - split_and!; try done. intros n st Hn. by left.
  - split_and!; try done. intros n st Hn.
    destruct (Hk n st Hn) as [Hkept|(_ & Hres & Hun)]; [|done].
    rewrite Hempty, lookup_empty in Hkept. done.
Qed.

Lemma finish_task_nothing_managed action w t g :
  managed_ntps w = ∅ → gate w = t :: g →
  finish_task 0 action w = Ok (set_gate g w).
Proof.
  intros Hm Hg. unfold finish_task. rewrite Hg. simpl.
  unfold handle_operation_result. rewrite Hm, lookup_empty. simpl.
  by rewrite Hg.
Qed.

Lemma await_actions_nothing_managed actions w :
  managed_ntps w = ∅ →
  await_actions (gate w) actions w = Ok (set_gate [] w).
Proof.
  remember (gate w) as g eqn:Hg. revert w Hg.
  induction g as [|t g IH]; intros w Hg Hm; simpl.
  - destruct w; simpl in *; by subst.
  - rewrite (finish_task_nothing_managed _ w t g) by done. simpl.
    rewrite IH by done. by destruct w.
Qed.

Lemma stop_effect actions w :
  worker_inv w → gate_inv w →
  ∃ w', stop_undisturbed actions w = Ok w'
    ∧ managed_ntps w' = ∅ ∧ gate w' = [] ∧ gate_closed w' = true
    ∧ promises w' = promises (stop_loop w)
    ∧ leaders_table w' = leaders_table (stop_loop w)
    ∧ self w' = self (stop_loop w).
Proof.
  intros Hinv Hgate.
  destruct (stop_loop_effect w Hinv) as (Hm & Hg & Hc & _).
  unfold stop_undisturbed, stop_suspends, stop, gate_close.
  destruct (gate_closed (stop_loop w)) eqn:Hcl; simpl negb; cbv iota.
  - exists (stop_loop w). split_and!; try done.
    rewrite Hg. apply Hgate. congruence.
  - rewrite (await_actions_nothing_managed actions
               (set_gate_closed true (stop_loop w))) by done.
    eexists. split; [done|]. by split_and!.
Qed.

Lemma worker_inv_stop actions w w' :
  worker_inv w → gate_inv w → stop_undisturbed actions w = Ok w' →
  worker_inv w' ∧ gate_inv w'.
Proof.
  intros Hinv Hgate Hstop.
  destruct (stop_effect actions w Hinv Hgate)
    as (w2 & Hstop2 & Hm & Hg & Hc & Hps & Hlt & _).
  assert (w2 = w') as -> by congruence.
  split; [|by intros _].
  pose proof (worker_inv_stop_loop w Hinv) as [Hs Hu Hi Hl].
  split; unfold subscribed, unresolved in *;
    rewrite ?Hm, ?Hps, ?Hlt; try done; intros *; by rewrite lookup_empty.
Qed.

(** ** Every reachable state satisfies the invariants *)

Lemma step_inv e w w' :
  worker_inv w → gate_inv w → step e w = Ok w' → worker_inv w' ∧ gate_inv w'.
Proof.
  intros Hinv Hgate.
  destruct e as [n pw early|n mid sought|actions|n term leader|i action|n leader];
    simpl.
  - destruct (perform_partition_work n pw early w) as [[w2 p]|] eqn:Hp; [|done].
    simpl. intros [= <-]. split.
    + by eapply worker_inv_perform.
    + by eapply gate_inv_perform.
  - intros [= <-]. split; [by apply worker_inv_abort|].
    unfold abort_partition_work.
    destruct (managed_ntps w !! n); [|done]. destruct (_ && _); [|done].
    eapply gate_frame_inv; [apply gate_frame_unmanage|done].
  - by apply worker_inv_stop.
  - unfold leadership_callback. intros H. split.
    + by eapply worker_inv_handle_leadership_update.
    + eapply gate_frame_inv; [|done]. by eapply gate_frame_handle_leadership_update.
  - intros H. split.
    + by eapply worker_inv_finish_task.
    + by eapply gate_inv_finish_task.
  - intros [= <-]. split; [|done]. destruct Hinv as [Hs Hu Hi Hl]. by split.
Qed.

Lemma reachable_inv w : reachable w → worker_inv w ∧ gate_inv w.
Proof.
  induction 1 as [self_id lt Hlt|w e w' _ [IH1 IH2] Hstep].
  - split; [by apply worker_inv_new|]. by intros.
  - by eapply step_inv.
Qed.

(** ** Work that reached the dispatch is legal *)

Lemma dispatch_inv_weaken it w : dispatch_inv w → dispatch_inv_but it w.
Proof. intros H Hc n st _. by apply H. Qed.

Lemma dispatch_inv_but_insert it st w :
  dispatch_inv_but it w →
  dispatch_inv_but it (set_managed_ntps (<[it := st]> (managed_ntps w)) w).
Proof.
  intros H Hc n s Hne. simpl. rewrite lookup_insert_ne by done. by apply H.
Qed.

Lemma dispatch_inv_spawn it w w' :
  dispatch_inv_but it w → spawn_work_if_leader it w = Ok w' → dispatch_inv w'.
Proof.
  intros Hbut. unfold spawn_work_if_leader.
  destruct (managed_ntps w !! it) as [st|] eqn:Hit.
  2:{ intros [= <-] Hc n s Hn. apply (Hbut Hc n s); [|done]. congruence. }
  destruct (is_running st) eqn:Hrun; simpl; [done|].
  destruct (is_leader st) eqn:Hlead; simpl.
  2:{ intros [= <-] Hc n s Hn. destruct (decide (n = it)) as [->|Hne].
      - assert (s = st) as -> by congruence. intros [?|?]; congruence.
      - by apply (Hbut Hc n s). }
  destruct (gate_closed w) eqn:Hcl; [intros [= <-] Hc; simpl in Hc; congruence|].
  destruct (do_work_visit it (work st)) as [u|] eqn:Hv; simpl; [|done].
  intros [= <-] Hc n s. simpl.
  destruct (decide (it = n)) as [<-|Hne].
  - rewrite lookup_insert_eq. intros [= <-] _. simpl.
    by eapply do_work_visit_Ok.
  - rewrite lookup_insert_ne by done. apply Hbut; [done|congruence].
Qed.

Lemma dispatch_inv_unmanage it res w :
  dispatch_inv w → dispatch_inv (unmanage_ntp it res w).
Proof.
  intros H. unfold unmanage_ntp. destruct (managed_ntps w !! it) as [st|]; [|done].
  intros Hc n s Hn. simpl in *. apply lookup_delete_Some in Hn as [_ Hn].
  by apply (H Hc n s).
Qed.

Lemma dispatch_inv_handle_operation_result n mid sought ec w w' :
  dispatch_inv w → handle_operation_result n mid sought ec w = Ok w' →
  dispatch_inv w'.
Proof.
  intros Hd. unfold handle_operation_result.
  destruct (managed_ntps w !! n) as [st|] eqn:Hn; [|by intros [= <-]].
  destruct (_ || _); [by intros [= <-]|].
  destruct (_ && _).
  - apply dispatch_inv_spawn, dispatch_inv_but_insert. by apply dispatch_inv_weaken.
  - intros [= <-]. apply dispatch_inv_unmanage.
    intros Hc m s. simpl. destruct (decide (n = m)) as [<-|Hne].
    + rewrite lookup_insert_eq. intros [= <-] [Hl|Hr]; [|done].
      apply (Hd Hc n st Hn). by left.
    + rewrite lookup_insert_ne by done. by apply Hd.
Qed.

Lemma dispatch_inv_handle_leadership_update n leader w w' :
  dispatch_inv w → handle_leadership_update n leader w = Ok w' →
  dispatch_inv w'.
Proof.
  intros Hd. unfold handle_leadership_update.
  destruct (managed_ntps w !! n) as [st|] eqn:Hn; [|by intros [= <-]].
  destruct (bool_decide _); [by intros [= <-]|].
  simpl. destruct (is_running st) eqn:Hrun; simpl.
  - intros [= <-] Hc m s. simpl. destruct (decide (n = m)) as [<-|Hne].
    + rewrite lookup_insert_eq. intros [= <-] _. simpl.
      apply (Hd Hc n st Hn). by right.
    + rewrite lookup_insert_ne by done. by apply Hd.
  - apply dispatch_inv_spawn, dispatch_inv_but_insert. by apply dispatch_inv_weaken.
Qed.

Lemma dispatch_inv_finish_task i action w w' :
  dispatch_inv w → finish_task i action w = Ok w' → dispatch_inv w'.
Proof.
  intros Hd. unfold finish_task.
  destruct (gate w !! i) as [t|]; [|by intros [= <-]].
  destruct (handle_operation_result _ _ _ _ w) as [w1|] eqn:H; [|done].
  simpl. intros [= <-].
  by apply (dispatch_inv_handle_operation_result _ _ _ _ _ _ Hd) in H.
Qed.

Lemma dispatch_inv_perform n pw early w w' f :
  dispatch_inv w → perform_partition_work n pw early w = Ok (w', f) →
  dispatch_inv w'.
Proof.
  intros Hd (w1 & w2 & Hprep & Hsp & Hc & _)%perform_stages.
  eapply (complete_inline_ind dispatch_inv); [|..|exact Hc].
  - intros action w3 w4 H3. by apply dispatch_inv_finish_task.
  - eapply dispatch_inv_spawn; [|done].
    intros Hc1 m s Hne Hm.
    assert (gate_closed w = false ∧ managed_ntps w !! m = Some s) as [Hc0 Hm0].
    { destruct Hprep as [[_ ->]|(st & _ & ->)]; simpl in *;
        by rewrite lookup_insert_ne in Hm. }
    by apply (Hd Hc0 m s).
Qed.



(** ** Runs of the worker *)

Lemma reachable_steps w w' : reachable w → steps w w' → reachable w'.
Proof.
  intros Hr Hs. induction Hs as [|w e w1 w2 Hstep _ IH]; [done|].
  apply IH. by eapply reachable_step.
Qed.

(** ** Completion of an action *)

Lemma terminal_false ec :
  terminal ec = false →
  bool_decide (ec ≠ success) && bool_decide (ec ≠ shutting_down) = true.
Proof.
  unfold terminal. intros [H1 H2]%orb_false_elim.
  apply bool_decide_eq_false in H1. apply bool_decide_eq_false in H2.
  by rewrite !bool_decide_eq_true_2.
Qed.

Lemma terminal_true ec :
  terminal ec = true →
  bool_decide (ec ≠ success) && bool_decide (ec ≠ shutting_down) = false.
Proof.
  unfold terminal. intros [H|H]%orb_true_elim; apply bool_decide_eq_true in H;
    subst; by rewrite ?andb_false_r.
Qed.

Lemma handle_operation_result_matching n ec w st :
  managed_ntps w !! n = Some st →
  handle_operation_result n (migration_id (work st)) (sought_state (work st)) ec w =
    let w' := set_managed_ntps
                (<[n := set_is_running false st]> (managed_ntps w)) w in
    if terminal ec then Ok (unmanage_ntp n ec w') else spawn_work_if_leader n w'.
Proof.
  intros Hn. unfold handle_operation_result. rewrite Hn.
  rewrite !bool_decide_eq_false_2 by (intros H; by apply H). simpl.
  destruct (terminal ec) eqn:Ht.
  - by rewrite (terminal_true _ Ht).
  - by rewrite (terminal_false _ Ht).
Qed.

(** A retried completion: the entry stays, and runs again iff it leads. *)
Lemma handle_operation_result_retry n ec w st :
  managed_ntps w !! n = Some st → terminal ec = false →
  gate_closed w = false →
  (is_leader st = true → legal_work (work st) = true) →
  handle_operation_result n (migration_id (work st)) (sought_state (work st)) ec w =
    Ok (mk_worker (self w) (leaders_table w)
          (<[n := set_is_running (is_leader st) st]> (managed_ntps w))
          (promises w)
          (if is_leader st then gate w ++ [task_of n st] else gate w)
          false).
Proof.
  intros Hn Ht Hc Hlegal.
  rewrite (handle_operation_result_matching _ _ _ _ Hn), Ht. simpl.
  rewrite (spawn_work_if_leader_idle _ _ (set_is_running false st))
    by (simpl; by rewrite ?lookup_insert_eq).
  simpl. destruct (is_leader st) eqn:Hl.
  - rewrite Hc, do_work_visit_legal by auto. simpl.
    unfold set_gate, set_managed_ntps. simpl.
    by rewrite insert_insert_eq, Hc.
  - unfold set_managed_ntps. by rewrite Hc.
Qed.

(** A terminal completion: the entry is unmanaged and its promise carries
    the code. *)
Lemma handle_operation_result_terminal n ec w st :
  worker_inv w → managed_ntps w !! n = Some st → terminal ec = true →
  ∃ w',
    handle_operation_result
      n (migration_id (work st)) (sought_state (work st)) ec w = Ok w'
    ∧ managed_ntps w' = delete n (managed_ntps w)
    ∧ resolved_once w' (promise st) ec
    ∧ unsubscribed w' (leadership_subscription st)
    ∧ gate w' = gate w ∧ gate_closed w' = gate_closed w.
Proof.
  intros Hinv Hn Ht.
  rewrite (handle_operation_result_matching _ _ _ _ Hn), Ht. simpl.
  eexists. split; [done|].
  set (w1 := set_managed_ntps _ w).
  assert (worker_inv w1) as Hinv1
    by by apply (worker_inv_update_entry w n st).
  assert (managed_ntps w1 !! n = Some (set_is_running false st)) as Hn1
    by (subst w1; simpl; by rewrite lookup_insert_eq).
  destruct (unmanage_ntp_effect n ec w1 _ Hinv1 Hn1)
    as (Hm & Hres & Hun & _ & _ & Hg & Hc & _).
  split_and!; try done.
  rewrite Hm. subst w1. simpl. by rewrite delete_insert_eq.
Qed.

(** ** Completions inside a call *)

Lemma finish_task_idle k action w :
  gate w !! k = None → finish_task k action w = Ok w.
Proof. intros H. unfold finish_task. by rewrite H. Qed.

Lemma complete_inline_idle early k w :
  gate w !! k = None → complete_inline early k w = Ok w.
Proof.
  intros H. induction early as [|action early IH]; simpl; [done|].
  by rewrite finish_task_idle.
Qed.

Lemma delete_last_respawned (g : list task) k t :
  g !! k = Some t → length g = S k → delete k (g ++ [t]) = g.
Proof.
  intros Hk Hlen. apply list_eq. intros i.
  destruct (decide (i < k)) as [Hlt|Hge].
  - rewrite list_lookup_delete_lt by done. apply lookup_app_l. lia.
  - rewrite list_lookup_delete_ge by lia.
    destruct (decide (i = k)) as [->|Hne].
    + rewrite lookup_app_r by lia. by rewrite <- Hlen, Nat.sub_diag, Hk.
    + rewrite !lookup_ge_None_2; [done|lia|rewrite length_app; simpl; lia].
Qed.

Lemma lookup_delete_last (g : list task) k t :
  g !! k = Some t → length g = S k → delete k g !! k = None.
Proof.
  intros Hk Hlen. apply lookup_ge_None_2.
  rewrite length_delete by by eexists. lia.
Qed.

(** The action of a leading, running entry finishes: a terminal code ends
    the entry, any other code leaves the worker as it was, with the action
    spawned anew. *)
Lemma finish_task_spawned n k action w st :
  managed_ntps w !! n = Some st → is_leader st = true → is_running st = true →
  gate_closed w = false → legal_work (work st) = true →
  gate w !! k = Some (task_of n st) → length (gate w) = S k →
  finish_task k action w =
    Ok (if terminal (do_work_catch action)
        then set_gate (delete k (gate w))
               (unmanage_ntp n (do_work_catch action) w)
        else w).
Proof.
  intros Hn Hl Hr Hc Hlegal Hk Hlen. unfold finish_task. rewrite Hk. simpl.
  destruct (terminal _) eqn:Ht.
  - rewrite (handle_operation_result_matching _ _ _ _ Hn), Ht. simpl.
    unfold unmanage_ntp. simpl. rewrite lookup_insert_eq, Hn. simpl.
    by rewrite delete_insert_eq.
  - rewrite (handle_operation_result_retry _ _ _ _ Hn Ht Hc) by done.
    simpl. rewrite Hl. unfold set_gate. simpl.
    rewrite delete_last_respawned by done.
    rewrite insert_id by (rewrite Hn; destruct st; simpl in *; by subst).
    destruct w. simpl in *. by subst.
Qed.

Lemma complete_inline_spawned n k early w st :
  managed_ntps w !! n = Some st → is_leader st = true → is_running st = true →
  gate_closed w = false → legal_work (work st) = true →
  gate w !! k = Some (task_of n st) → length (gate w) = S k →
  ∃ w', complete_inline early k w = Ok w'
    ∧ (w' = w
       ∨ ∃ ec, terminal ec = true
           ∧ w' = set_gate (delete k (gate w)) (unmanage_ntp n ec w)).
Proof.
  intros Hn Hl Hr Hc Hlegal Hk Hlen.
  induction early as [|action early IH]; simpl; [exists w; by split; [|left]|].
  rewrite (finish_task_spawned n k action w st) by done. simpl.
  destruct (terminal (do_work_catch action)) eqn:Ht; [|exact IH].
  eexists. split.
  - apply complete_inline_idle. simpl. by eapply lookup_delete_last.
  - right. by exists (do_work_catch action).
Qed.

(** ** The spawn decision of [perform_partition_work] *)

Lemma after_spawn_managed n st1 w1 :
  managed_ntps (after_spawn n st1 w1) !! n
  = Some (set_is_running (is_leader st1) st1).
Proof. unfold after_spawn. simpl. by rewrite lookup_insert_eq. Qed.

Lemma spawn_idle_cases n w1 st1 :
  managed_ntps w1 !! n = Some st1 → is_running st1 = false →
  if is_leader st1 && negb (gate_closed w1) && negb (legal_work (work st1))
  then ∃ msg, spawn_work_if_leader n w1 = AssertFailed msg ∧ dispatch_failure msg
  else spawn_work_if_leader n w1 = Ok (after_spawn n st1 w1).
Proof.
  intros Hn Hr. rewrite (spawn_work_if_leader_idle _ _ _ Hn Hr).
  unfold after_spawn. destruct (is_leader st1) eqn:Hl; simpl.
  - destruct (gate_closed w1) eqn:Hc; simpl.
    + unfold set_managed_ntps. by rewrite Hc.
    + destruct (legal_work (work st1)) eqn:Hlegal; simpl.
      * rewrite do_work_visit_legal by done. simpl.
        unfold set_gate, set_managed_ntps. simpl. by rewrite Hc.
      * destruct (do_work_visit n (work st1)) as [[]|msg] eqn:Hv.
        -- apply do_work_visit_Ok in Hv. congruence.
        -- exists msg. split; [done|]. by eapply do_work_visit_failure.
  - f_equal. rewrite insert_id
      by (rewrite Hn; destruct st1; simpl in *; by subst).
    by destruct w1.
Qed.

(** A call of [perform_partition_work] from the state [w1] it has prepared,
    with the idle entry [st1] at [n]: the spawn, the completions inside the
    call, and the read of the future at the end. *)
Lemma perform_after_spawn n early w1 st1 :
  managed_ntps w1 !! n = Some st1 → is_running st1 = false →
  let call := w2 ← spawn_work_if_leader n w1;
              returning n early (length (gate w1)) w2 in
  if is_leader st1 && negb (gate_closed w1) && negb (legal_work (work st1))
  then ∃ msg, call = AssertFailed msg ∧ dispatch_failure msg
  else ∃ w',
    complete_inline early (length (gate w1)) (after_spawn n st1 w1) = Ok w'
    ∧ call = Ok (w', future_at n w')
    ∧ (w' = after_spawn n st1 w1
       ∨ (is_leader st1 && negb (gate_closed w1) = true
          ∧ ∃ ec, terminal ec = true
              ∧ w' = set_gate (gate w1)
                       (unmanage_ntp n ec (after_spawn n st1 w1)))).
Proof.
  intros Hn Hr. simpl.
  pose proof (spawn_idle_cases n w1 st1 Hn Hr) as Hsp.
  destruct (is_leader st1 && negb (gate_closed w1)) eqn:Es; simpl in *.
  - destruct (legal_work (work st1)) eqn:Hlegal; simpl in *.
    + rewrite Hsp. simpl. unfold returning.
      apply andb_prop in Es as [Hl Hc]. apply negb_true_iff in Hc.
      destruct (complete_inline_spawned n (length (gate w1)) early
                  (after_spawn n st1 w1) (set_is_running (is_leader st1) st1))
        as (w' & Hci & Hcases).
      * apply after_spawn_managed.
      * done.
      * by rewrite Hl.
      * done.
      * done.
      * unfold after_spawn. simpl. rewrite Hl, Hc. simpl.
        by rewrite lookup_app_r, Nat.sub_diag.
      * unfold after_spawn. simpl. rewrite Hl, Hc. simpl.
        rewrite length_app. simpl. lia.
      * exists w'. rewrite Hci. simpl. split; [done|]. split; [done|].
        destruct Hcases as [->|(ec & Ht & ->)]; [by left|right].
        split; [done|]. exists ec. split; [done|]. f_equal.
        unfold after_spawn at 1. simpl. rewrite Hl, Hc. simpl.
        by rewrite delete_middle, app_nil_r.
    + destruct Hsp as (msg & -> & Hmsg). by exists msg.
  - rewrite Hsp. simpl. unfold returning.
    assert (complete_inline early (length (gate w1)) (after_spawn n st1 w1)
            = Ok (after_spawn n st1 w1)) as Hci.
    { apply complete_inline_idle. unfold after_spawn. simpl. rewrite Es.
      by apply lookup_ge_None_2. }
    exists (after_spawn n st1 w1). rewrite Hci. simpl. by split_and!; [..|left].
Qed.

(** ** Every operation is a sequence of elementary updates *)

Section updates.
Context (S : partition_work → Prop).

Lemma spawn_updates it w w' :
  spawn_work_if_leader it w = Ok w' → rtc (update S) w w'.
Proof.
  unfold spawn_work_if_leader.
  destruct (managed_ntps w !! it) as [st|] eqn:Hit; [|by intros [= <-]].
  destruct (is_running st); simpl; [done|].
  destruct (is_leader st); simpl; [|by intros [= <-]].
  assert (update S w (set_managed_ntps
            (<[it := set_is_running true st]> (managed_ntps w)) w)) as Hu
    by by eapply update_entry.
  destruct (gate_closed w); [intros [= <-]; by apply rtc_once|].
  destruct (do_work_visit it _); simpl; [|done].
  intros [= <-]. eapply rtc_l; [exact Hu|]. apply rtc_once, update_gate.
Qed.

Lemma unmanage_updates it res w : rtc (update S) w (unmanage_ntp it res w).
Proof.
  destruct (managed_ntps w !! it) as [st|] eqn:Hit.
  - by eapply rtc_once, update_unmanage.
  - unfold unmanage_ntp. by rewrite Hit.
Qed.

Lemma handle_operation_result_updates n mid sought ec w w' :
  handle_operation_result n mid sought ec w = Ok w' → rtc (update S) w w'.
Proof.
  unfold handle_operation_result.
  destruct (managed_ntps w !! n) as [st|] eqn:Hn; [|by intros [= <-]].
  destruct (_ || _); [by intros [= <-]|].
  assert (update S w (set_managed_ntps
            (<[n := set_is_running false st]> (managed_ntps w)) w)) as Hu
    by by eapply update_entry.
  destruct (_ && _).
  - intros H%spawn_updates. by eapply rtc_l.
  - intros [= <-]. eapply rtc_l; [exact Hu|]. apply unmanage_updates.
Qed.

Lemma handle_leadership_update_updates n leader w w' :
  handle_leadership_update n leader w = Ok w' → rtc (update S) w w'.
Proof.
  unfold handle_leadership_update.
  destruct (managed_ntps w !! n) as [st|] eqn:Hn; [|by intros [= <-]].
  destruct (bool_decide _); [by intros [= <-]|].
  assert (update S w (set_managed_ntps
            (<[n := set_is_leader leader st]> (managed_ntps w)) w)) as Hu
    by by eapply update_entry.
  destruct (negb _).
  - intros H%spawn_updates. by eapply rtc_l.
  - intros [= <-]. by apply rtc_once.
Qed.

Lemma finish_task_updates i action w w' :
  finish_task i action w = Ok w' → rtc (update S) w w'.
Proof.
  unfold finish_task. destruct (gate w !! i) as [t|]; [|by intros [= <-]].
  destruct (handle_operation_result _ _ _ _ w) as [w1|] eqn:H; [|done].
  simpl. intros [= <-]. eapply rtc_r; [|apply update_gate].
  by eapply handle_operation_result_updates.
Qed.

Lemma complete_inline_updates early k w w' :
  complete_inline early k w = Ok w' → rtc (update S) w w'.
Proof.
  intros H. eapply (complete_inline_ind (rtc (update S) w)); [|done|exact H].
  intros action w1 w2 H1 H2. etrans; [exact H1|by eapply finish_task_updates].
Qed.

Lemma perform_updates n pw early w w' f :
  S pw → perform_partition_work n pw early w = Ok (w', f) → rtc (update S) w w'.
Proof.
  intros HS (w1 & w2 & Hprep & Hsp & Hc & _)%perform_stages.
  assert (update S w w1) as Hu.
  { destruct Hprep as [[Hn ->]|(st & Hn & ->)];
      [by eapply update_emplace|by eapply update_reuse]. }
  eapply rtc_l; [exact Hu|].
  etrans; [by eapply spawn_updates|by eapply complete_inline_updates].
Qed.

Lemma abort_updates n mid sought w :
  rtc (update S) w (abort_partition_work n mid sought w).
Proof.
  unfold abort_partition_work.
  destruct (managed_ntps w !! n); [|done].
  destruct (_ && _); [|done]. apply unmanage_updates.
Qed.

Lemma await_actions_updates pending actions w w' :
  await_actions pending actions w = Ok w' → rtc (update S) w w'.
Proof.
  revert w. induction pending as [|t pending IH]; intros w; simpl.
  - by intros [= <-].
  - destruct (finish_task 0 _ w) as [w1|] eqn:H; [|done]. simpl.
    intros Hrest. etrans; [by eapply finish_task_updates|by apply IH].
Qed.

Lemma stop_loop_updates w : rtc (update S) w (stop_loop w).
Proof.
  apply (stop_loop_ind (fun w1 => rtc (update S) w w1)); [|done].
  intros w1 it st Hit Hrtc. eapply rtc_r; [exact Hrtc|].
  by eapply update_unmanage.
Qed.

Lemma stop_updates w : rtc (update S) w (stop w).
Proof.
  unfold stop. destruct (negb _).
  - eapply rtc_r; [apply stop_loop_updates|apply update_gate_closed].
  - apply stop_loop_updates.
Qed.

Lemma stop_undisturbed_updates actions w w' :
  stop_undisturbed actions w = Ok w' → rtc (update S) w w'.
Proof.
  unfold stop_undisturbed. destruct (stop_suspends w).
  - intros H%await_actions_updates. etrans; [apply stop_updates|exact H].
  - intros [= <-]. apply stop_updates.
Qed.
End updates.

Lemma step_updates e w w' :
  step e w = Ok w' → rtc (update (submitted_by e)) w w'.
Proof.
  destruct e as [n pw early|n mid sought|actions|n term leader|i action|n leader];
    simpl.
  - destruct (perform_partition_work n pw early w) as [[w2 p]|] eqn:Hp; [|done].
    simpl. intros [= <-]. by eapply perform_updates.
  - intros [= <-]. apply abort_updates.
  - apply stop_undisturbed_updates.
  - apply handle_leadership_update_updates.
  - apply finish_task_updates.
  - intros [= <-]. apply rtc_once, update_leaders.
Qed.

Lemma worker_inv_update S w w' : update S w w' → worker_inv w → worker_inv w'.
Proof.
  intros Hu Hinv. destruct Hu.
  - by eapply worker_inv_update_entry.
  - by apply worker_inv_set_gate.
  - by apply worker_inv_set_gate_closed.
  - destruct Hinv as [Hs Hu Hi Hl]. by split.
  - by apply worker_inv_unmanage.
  - by apply worker_inv_emplaced.
  - by apply worker_inv_reused.
Qed.

(** A property kept by every elementary update of a well-kept worker is
    kept by every sequence of them. *)
Lemma updates_ind S (P : worker → Prop) :
  (∀ w w', update S w w' → worker_inv w → P w → P w') →
  ∀ w w', rtc (update S) w w' → worker_inv w → P w → worker_inv w' ∧ P w'.
Proof.
  intros Hone w w' Hrtc. induction Hrtc as [w|w w1 w2 Hu _ IH]; [done|].
  intros Hinv HP. apply IH; [by eapply worker_inv_update|by eapply Hone].
Qed.

(** ** What the updates keep *)

Lemma settled_update S w w' p vs :
  update S w w' → worker_inv w → vs ≠ [] →
  promises w !! p = Some vs → promises w' !! p = Some vs.
Proof.
  intros Hu Hinv Hvs Hl. destruct Hu as
    [w n st st' Hn Hp Hsub Hwork|w g|w c|w n leader|w it res st Hit
    |w n pw Hn HS|w n pw st Hn HS]; try done.
  - rewrite (unmanage_ntp_managed _ _ _ _ Hit). simpl.
    rewrite lookup_set_value_ne; [done|]. intros E.
    pose proof (inv_unresolved _ Hinv _ _ Hit) as Hun. unfold unresolved in Hun.
    congruence.
  - unfold emplaced. simpl. rewrite lookup_app_l; [done|].
    by eapply lookup_lt_Some.
  - unfold reused. simpl.
    rewrite lookup_app_l by (rewrite length_set_value; by eapply lookup_lt_Some).
    rewrite lookup_set_value_ne; [done|]. intros E.
    pose proof (inv_unresolved _ Hinv _ _ Hn) as Hun. unfold unresolved in Hun.
    congruence.
Qed.

(** ** How entries leave the map *)

Lemma resolved_update S w w' p ec :
  update S w w' → worker_inv w → resolved_once w p ec → resolved_once w' p ec.
Proof. intros Hu Hinv. by apply (settled_update S w w' p [ec] Hu Hinv). Qed.

Lemma next_id_update S w w' :
  update S w w' →
  next_notification_id (leaders_table w) ≤ next_notification_id (leaders_table w').
Proof.
  destruct 1 as
    [w n st st' Hn Hp Hsub Hwork|w g|w c|w n leader|w it res st Hit
    |w n pw Hn HS|w n pw st Hn HS]; simpl; try done.
  - by rewrite (unmanage_ntp_managed _ _ _ _ Hit).
  - lia.
Qed.

Lemma unsubscribed_update S w w' i :
  update S w w' → i < next_notification_id (leaders_table w) →
  unsubscribed w i → unsubscribed w' i.
Proof.
  unfold unsubscribed.
  destruct 1 as
    [w n st st' Hn Hp Hsub Hwork|w g|w c|w n leader|w it res st Hit
    |w n pw Hn HS|w n pw st Hn HS]; simpl; try done.
  - rewrite (unmanage_ntp_managed _ _ _ _ Hit). simpl. intros _ Hi.
    apply lookup_delete_None. by right.
  - intros Hlt Hi. rewrite lookup_insert_ne by lia. done.
Qed.

Lemma tracked_update S n st w w' :
  update S w w' → worker_inv w → tracked n st w → tracked n st w'.
Proof.
  intros Hu Hinv [Hlt Hcase].
  pose proof (next_id_update _ _ _ Hu) as Hnext.
  split; [lia|].
  assert (∀ ec, resolved_once w (promise st) ec → resolved_once w' (promise st) ec)
    as Hkeep by (intros ec; by eapply resolved_update).
  assert (unsubscribed w (leadership_subscription st) →
          unsubscribed w' (leadership_subscription st))
    as Hkeepu by by eapply unsubscribed_update.
  destruct Hcase as [(st' & Hn & Hsub & Hp)|(Hun & ec & Hres)];
    [|right; split; [by apply Hkeepu|exists ec; by apply Hkeep]].
  clear Hkeepu Hnext Hlt.
  destruct Hu as
    [w m s s' Hm Hps Hss Hw|w g|w c|w m leader|w it res s Hit
    |w m pw Hm HS|w m pw s Hm HS].
  - left. destruct (decide (m = n)) as [->|Hne].
    + exists s'. simpl. rewrite lookup_insert_eq.
      assert (s = st') as -> by congruence.
      split; [done|]. split; [congruence|].
      destruct Hp as [Hp|[ec Hres]]; [left; congruence|right; by exists ec].
    + exists st'. simpl. rewrite lookup_insert_ne by done.
      split; [done|]. split; [done|].
      destruct Hp as [Hp|[ec Hres]]; [by left|right; by exists ec].
  - left. exists st'. split; [done|]. split; [done|].
    destruct Hp as [Hp|[ec Hres]]; [by left|right; by exists ec].
  - left. exists st'. split; [done|]. split; [done|].
    destruct Hp as [Hp|[ec Hres]]; [by left|right; by exists ec].
  - left. exists st'. split; [done|]. split; [done|].
    destruct Hp as [Hp|[ec Hres]]; [by left|right; by exists ec].
  - destruct (decide (it = n)) as [->|Hne].
    + right. assert (s = st') as -> by congruence.
      destruct (unmanage_ntp_effect n res w st' Hinv Hit)
        as (_ & Hres & Hun & _).
      rewrite <- Hsub. split; [done|].
      destruct Hp as [Hp|[ec Hres']]; [exists res; by rewrite <- Hp|].
      exists ec. by apply Hkeep.
    + left. exists st'. rewrite (unmanage_ntp_managed _ _ _ _ Hit). simpl.
      rewrite lookup_delete_ne by done. split; [done|]. split; [done|].
      destruct Hp as [Hp|[ec Hres]]; [by left|right].
      exists ec. rewrite <- (unmanage_ntp_managed _ _ _ _ Hit). by apply Hkeep.
  - left. exists st'. unfold emplaced at 1. simpl.
    rewrite lookup_insert_ne by (intros ->; congruence).
    split; [done|]. split; [done|].
    destruct Hp as [Hp|[ec Hres]]; [by left|right].
    exists ec. by apply Hkeep.
  - destruct (decide (m = n)) as [->|Hne].
    + left. assert (s = st') as -> by congruence.
      eexists. unfold reused at 1. simpl. rewrite lookup_insert_eq.
      split; [done|]. simpl. split; [done|]. right.
      destruct Hp as [Hp|[ec Hres]]; [|exists ec; by apply Hkeep].
      exists invalid_data_migration_state. unfold resolved_once, reused. simpl.
      pose proof (inv_unresolved _ Hinv _ _ Hn) as Hunres.
      unfold unresolved in Hunres. rewrite <- Hp.
      rewrite lookup_app_l
        by (rewrite length_set_value; by eapply lookup_lt_Some).
      by rewrite (lookup_set_value_eq _ _ _ []).
    + left. exists st'. unfold reused at 1. simpl.
      rewrite lookup_insert_ne by done. split; [done|]. split; [done|].
      destruct Hp as [Hp|[ec Hres]]; [by left|right].
      exists ec. by apply Hkeep.
Qed.

Lemma updates_properly_unmanaged S w w' :
  rtc (update S) w w' → worker_inv w → properly_unmanaged w w'.
Proof.
  intros Hrtc Hinv n st Hn Hnone.
  destruct (updates_ind S (tracked n st)) with (w := w) (w' := w')
    as [_ [_ [(st' & Hn' & _)|Hgone]]]; try done.
  - intros w1 w2 Hu Hinv1. by apply (tracked_update S).
  - split.
    + pose proof (inv_subscribed _ Hinv _ _ Hn) as Hsub.
      by apply (inv_leaders_wf _ Hinv) in Hsub.
    + left. exists st. split; [done|]. split; [done|]. by left.
  - congruence.
Qed.

Lemma step_properly_unmanaged e w w' :
  worker_inv w → gate_inv w → step e w = Ok w' → properly_unmanaged w w'.
Proof.
  intros Hinv _ Hstep.
  eapply updates_properly_unmanaged; [by eapply step_updates|done].
Qed.

(** ** [stop], and what happens while it waits *)

Lemma stop_loop_empties w : managed_ntps (stop_loop w) = ∅.
Proof. by destruct (stop_loop_ind (fun _ => True)) with (w := w). Qed.

Lemma stop_managed w : managed_ntps (stop w) = ∅.
Proof. unfold stop. destruct (negb _); simpl; apply stop_loop_empties. Qed.

Lemma stop_gate_closed w : gate_closed (stop w) = true.
Proof. unfold stop. by destruct (gate_closed (stop_loop w)) eqn:E. Qed.

Lemma stop_loop_nothing_managed w : managed_ntps w = ∅ → stop_loop w = w.
Proof.
  intros H. rewrite stop_loop_eq, H. unfold back.
  by rewrite map_to_list_empty.
Qed.

(** A call of [stop] that nothing disturbs returns, whatever the worker it
    is called on. *)
Lemma stop_returns actions w :
  ∃ w', stop_undisturbed actions w = Ok w'
        ∧ managed_ntps w' = ∅ ∧ gate_closed w' = true.
Proof.
  pose proof (stop_managed w) as Hm. pose proof (stop_gate_closed w) as Hc.
  unfold stop_undisturbed. destruct (stop_suspends w).
  - rewrite (await_actions_nothing_managed actions (stop w)) by done.
    by eexists.
  - by eexists.
Qed.

Lemma next_id_updates S w w' :
  rtc (update S) w w' →
  next_notification_id (leaders_table w) ≤ next_notification_id (leaders_table w').
Proof.
  induction 1 as [|w w1 w2 Hu _ IH]; [done|].
  pose proof (next_id_update _ _ _ Hu). lia.
Qed.

Lemma stop_cancels w :
  worker_inv w →
  worker_inv (stop w) ∧ gate (stop w) = gate w
  ∧ ∀ n st, managed_ntps w !! n = Some st → shut_down st (stop w).
Proof.
  intros Hinv.
  destruct (stop_loop_effect w Hinv) as (_ & Hg & _ & Hall).
  pose proof (worker_inv_stop_loop w Hinv) as Hinv'.
  pose proof (next_id_updates (fun _ => False) w (stop w) (stop_updates _ w)) as Hnext.
  assert (promises (stop w) = promises (stop_loop w)
          ∧ leaders_table (stop w) = leaders_table (stop_loop w)
          ∧ gate (stop w) = gate (stop_loop w)) as (Hps & Hlt & Hgs)
    by (unfold stop; by destruct (negb _)).
  split_and!.
  - unfold stop. destruct (negb _); [by apply worker_inv_set_gate_closed|done].
  - congruence.
  - intros n st Hn. destruct (Hall n st Hn) as [Hres Hun].
    pose proof (inv_subscribed _ Hinv _ _ Hn) as Hsub.
    apply (inv_leaders_wf _ Hinv) in Hsub.
    unfold shut_down, unsubscribed, resolved_once in *.
    rewrite Hps, Hlt. split_and!; [|done|done]. rewrite <- Hlt. lia.
Qed.







Lemma unmanage_ntp_lookup it res w :
  managed_ntps (unmanage_ntp it res w) !! it = None.
Proof.
  unfold unmanage_ntp. destruct (managed_ntps w !! it) eqn:E; [|done].
  simpl. by rewrite lookup_delete_eq.
Qed.

(** A completion for a managed entry that carries the entry's ids, whether
    or not the gate is open. *)
Lemma handle_operation_result_retry_any n ec w st :
  managed_ntps w !! n = Some st → terminal ec = false →
  (is_leader st = true → gate_closed w = false → legal_work (work st) = true) →
  handle_operation_result n (migration_id (work st)) (sought_state (work st)) ec w =
    Ok (after_spawn n (set_is_running false st) w).
Proof.
  intros Hn Ht Hlegal.
  rewrite (handle_operation_result_matching _ _ _ _ Hn), Ht. simpl.
  pose proof (spawn_idle_cases n
                (set_managed_ntps
                   (<[n := set_is_running false st]> (managed_ntps w)) w)
                (set_is_running false st)) as Hsp.
  simpl in Hsp. rewrite lookup_insert_eq in Hsp.
  specialize (Hsp eq_refl eq_refl).
  destruct (is_leader st) eqn:Hl; simpl in Hsp.
  - destruct (gate_closed w) eqn:Hc; simpl in Hsp.
    + rewrite Hsp. unfold after_spawn. simpl.
      by rewrite Hl, Hc, insert_insert_eq.
    + rewrite Hlegal in Hsp by done. simpl in Hsp.
      rewrite Hsp. unfold after_spawn. simpl.
      by rewrite Hl, Hc, insert_insert_eq.
  - rewrite Hsp. unfold after_spawn. simpl.
    by rewrite Hl, insert_insert_eq.
Qed.

(** What a leadership notification does, case by case. *)
Lemma handle_leadership_update_cases n now w st :
  managed_ntps w !! n = Some st →
  let turned := now && negb (is_leader st) && negb (is_running st) in
  if turned && negb (gate_closed w) && negb (legal_work (work st))
  then ∃ msg, handle_leadership_update n now w = AssertFailed msg
              ∧ dispatch_failure msg
  else handle_leadership_update n now w =
         Ok (mk_worker (self w) (leaders_table w)
               (<[n := mk_ntp_state now (is_running st || turned) (work st)
                                    (promise st) (leadership_subscription st)]>
                  (managed_ntps w))
               (promises w)
               (if turned && negb (gate_closed w)
                then gate w ++ [task_of n st] else gate w)
               (gate_closed w)).
Proof.
  intros Hn. simpl. unfold handle_leadership_update. rewrite Hn.
  destruct st as [l r pw p sub]. simpl in *.
  destruct (decide (l = now)) as [->|Hne].
  - rewrite bool_decide_eq_true_2 by done.
    rewrite andb_negb_r. simpl. rewrite orb_false_r, insert_id by done.
    by destruct w.
  - rewrite bool_decide_eq_false_2 by done. unfold set_is_leader.
    destruct r; simpl.
    + rewrite !andb_false_r. simpl. done.
    + pose proof (spawn_idle_cases n
                    (set_managed_ntps
                       (<[n := mk_ntp_state now false pw p sub]> (managed_ntps w)) w)
                    (mk_ntp_state now false pw p sub)) as Hsp.
      simpl in Hsp. rewrite lookup_insert_eq in Hsp.
      specialize (Hsp eq_refl eq_refl).
      assert (now && negb l = now) as ->
        by (destruct now, l; try done; by destruct Hne).
      rewrite andb_true_r.
      destruct (now && negb (gate_closed w) && negb (legal_work pw)) eqn:E;
        [done|].
      rewrite Hsp. unfold after_spawn, task_of. simpl.
      by rewrite insert_insert_eq.
Qed.

(** ** The states of a worker, disturbed or not *)

Lemma step_worker_inv e w w' : worker_inv w → step e w = Ok w' → worker_inv w'.
Proof.
  intros Hinv Hstep.
  by destruct (updates_ind (submitted_by e) (fun _ => True) (fun _ _ _ _ _ => I)
                 w w' (step_updates e w w' Hstep) Hinv I).
Qed.

Lemma dispatch_inv_event e w w' :
  dispatch_inv w → step e w = Ok w' → dispatch_inv w'.
Proof.
  intros Hd.
  destruct e as [n pw early|n mid sought|actions|n term leader|i action|n leader];
    simpl.
  - destruct (perform_partition_work n pw early w) as [[w2 p]|] eqn:Hp; [|done].
    simpl. intros [= <-]. by eapply dispatch_inv_perform.
  - intros [= <-]. unfold abort_partition_work.
    destruct (managed_ntps w !! n); [|done]. destruct (_ && _); [|done].
    by apply dispatch_inv_unmanage.
  - intros Hstop. destruct (stop_returns actions w) as (w2 & Hstop2 & _ & Hc).
    assert (w2 = w') as -> by congruence. intros Hc'. congruence.
  - by apply dispatch_inv_handle_leadership_update.
  - by apply dispatch_inv_finish_task.
  - by intros [= <-].
Qed.

Lemma dispatch_inv_stop w : dispatch_inv (stop w).
Proof. intros Hc. by rewrite stop_gate_closed in Hc. Qed.

Lemma runs_inv w w' :
  runs w w' → worker_inv w → dispatch_inv w → worker_inv w' ∧ dispatch_inv w'.
Proof.
  induction 1 as [w|w e w1 w2 Hstep _ IH|w w2 _ IH]; intros Hinv Hd; [done|..].
  - apply IH; [by eapply step_worker_inv|by eapply dispatch_inv_event].
  - apply IH; [by destruct (stop_cancels w Hinv)|apply dispatch_inv_stop].
Qed.

Lemma attainable_inv w : attainable w → worker_inv w ∧ dispatch_inv w.
Proof.
  intros (self_id & lt & Hwf & Hruns).
  eapply runs_inv; [exact Hruns|by apply worker_inv_new|].
  intros _ n st. simpl. by rewrite lookup_empty.
Qed.

Lemma runs_trans w1 w2 w3 : runs w1 w2 → runs w2 w3 → runs w1 w3.
Proof.
  induction 1 as [w|w e w1 w2 Hstep _ IH|w w2 _ IH]; intros H3; [done|..].
  - eapply runs_event; [exact Hstep|by apply IH].
  - apply runs_stop. by apply IH.
Qed.

Lemma attainable_runs w w' : attainable w → runs w w' → attainable w'.
Proof.
  intros (self_id & lt & Hwf & Hruns) Hw.
  exists self_id, lt. split; [done|]. by eapply runs_trans.
Qed.

Lemma attainable_step e w w' : attainable w → step e w = Ok w' → attainable w'.
Proof.
  intros Ha Hstep. eapply attainable_runs; [exact Ha|].
  eapply runs_event; [exact Hstep|apply runs_refl].
Qed.

Lemma steps_runs w w' : steps w w' → runs w w'.
Proof.
  induction 1 as [|w e w1 w2 Hstep _ IH]; [apply runs_refl|].
  by eapply runs_event.
Qed.

Lemma reachable_attainable w : reachable w → attainable w.
Proof.
  induction 1 as [self_id lt Hlt|w e w' _ IH Hstep].
  - exists self_id, lt. split; [done|apply runs_refl].
  - by eapply attainable_step.
Qed.

Lemma stop_waits_runs w w' : stop_waits w w' → runs w w'.
Proof.
  induction 1 as [w Hd|w e w1 w2 _ Hstep _ IH]; [apply runs_refl|].
  by eapply runs_event.
Qed.

Lemma stop_completes_runs w w' : stop_completes w w' → runs w w'.
Proof.
  unfold stop_completes. destruct (stop_suspends w).
  - intros H. by apply runs_stop, stop_waits_runs.
  - intros ->. apply runs_stop, runs_refl.
Qed.

(** ** The concrete workers are reachable *)

Lemma leaders_node1_wf : leaders_wf leaders_node1.
Proof. intros i n. unfold leaders_node1. simpl. by rewrite lookup_empty. Defined.

Lemma fresh_worker_reachable : reachable fresh_worker.
Proof. apply reachable_new, leaders_node1_wf. Defined.

Lemma leading_worker_reachable : reachable leading_worker.
Proof.
  apply (reachable_step fresh_worker (ev_perform ntp_orders inbound_prepare [])).
  - apply fresh_worker_reachable.
  - reflexivity.
Defined.

Lemma stopped_worker_reachable : reachable stopped_worker.
Proof.
  apply (reachable_step leading_worker (ev_stop (fun _ => stub_action))).
  - apply leading_worker_reachable.
  - reflexivity.
Defined.

Lemma stopped_follower_reachable : reachable stopped_follower.
Proof.
  apply (reachable_step (stop (new_worker 2 leaders_node1))
           (ev_perform ntp_orders inbound_prepare [])).
  - apply (reachable_step (new_worker 2 leaders_node1) (ev_stop (fun _ => stub_action))).
    + apply reachable_new, leaders_node1_wf.
    + reflexivity.
  - reflexivity.
Defined.

(** ** The worker at work on concrete inputs *)

(** The leader is asked to prepare the partition, and the action is still
    running when the call returns: the entry runs and its action sits in the
    gate. *)
Example perform_as_leader :
  perform_partition_work ntp_orders inbound_prepare [] fresh_worker
  = Ok (leading_worker, future_of 0).
Proof. reflexivity. Qed.

(** The same call when the action has succeeded by the time its
    continuation is attached: the entry is gone when the call comes to read
    the future off it. *)
Example perform_as_leader_inline :
  perform_partition_work ntp_orders inbound_prepare [stub_action] fresh_worker
  = Ok (mk_worker 1 (mk_leaders {[ ntp_orders := 1%Z ]} ∅ 1) ∅ [[success]] [] false,
        dangling).
Proof. reflexivity. Qed.

(** On a node that does not lead, the entry is inserted and waits. *)
Example perform_as_follower :
  perform_partition_work ntp_orders inbound_prepare [] (new_worker 2 leaders_node1)
  = Ok (mk_worker 2
          (mk_leaders {[ ntp_orders := 1%Z ]} {[ 0 := ntp_orders ]} 1)
          {[ ntp_orders := mk_ntp_state false false inbound_prepare 0 0 ]}
          [[]] [] false,
        future_of 0).
Proof. reflexivity. Qed.

(** Inbound work towards [executed] trips the assertion of [do_work]. *)
Example perform_illegal_combination :
  perform_partition_work ntp_orders inbound_execute [] fresh_worker
  = AssertFailed "inbound partition work requested towards another state".
Proof. reflexivity. Qed.

(** The action succeeds: the entry is gone, the future carries [success]. *)
Example action_succeeds :
  finish_task 0 stub_action leading_worker
  = Ok (mk_worker 1 (mk_leaders {[ ntp_orders := 1%Z ]} ∅ 1) ∅ [[success]] [] false).
Proof. reflexivity. Qed.

(** The action fails with a transport error: it is spawned again. *)
Example action_fails :
  finish_task 0 (returned transport_failure) leading_worker = Ok leading_worker.
Proof. reflexivity. Qed.

(** The replica is moved away while the work runs: the pending future
    resolves to [invalid_data_migration_state], and the completion of the
    action, when it comes, finds nothing to do. *)
Example abort_while_running :
  let w := abort_partition_work ntp_orders 7 prepared leading_worker in
  w = mk_worker 1 (mk_leaders {[ ntp_orders := 1%Z ]} ∅ 1) ∅
        [[invalid_data_migration_state]] [mk_task ntp_orders 7 prepared] false
  ∧ finish_task 0 stub_action w = Ok (set_gate [] w).
Proof. split; reflexivity. Qed.

(** Shutdown while the work runs: [stop] cancels the entry, closes the gate
    and waits; when the action has finished, it returns. *)
Example stop_while_running :
  stop leading_worker = stopping_worker
  ∧ stop_suspends leading_worker = true
  ∧ finish_task 0 stub_action stopping_worker = Ok stopped_worker
  ∧ stop_undisturbed (fun _ => stub_action) leading_worker = Ok stopped_worker.
Proof. repeat split; reflexivity. Qed.

(** Work performed while [stop] waits: the entry is marked running though
    the closed gate lets no action in, and it is still there when the gate
    has drained. *)
Example perform_while_stopping :
  perform_partition_work ntp_orders outbound_execute [] stopping_worker
  = Ok (set_gate [mk_task ntp_orders 7 prepared] disturbed_worker, future_of 1)
  ∧ finish_task 0 stub_action
      (set_gate [mk_task ntp_orders 7 prepared] disturbed_worker)
    = Ok disturbed_worker.
Proof. split; reflexivity. Qed.

(** * The claims *)



(** C2. The dispatch of [do_work] goes through exactly for the combinations
    inbound/prepared, outbound/prepared and outbound/executed: the inbound
    overload asserts [sought_state == prepared], the outbound one asserts
    that the sought state is [prepared] or [executed], and with any other
    combination the assertion fails, the process is aborted and no code is
    produced, whatever the action would have done.  The same holds where the
    worker calls the dispatch: spawning for an idle leading entry of a
    running worker succeeds with a legal combination and aborts with any
    other. *)
Theorem dispatch_asserts_legal_combination n st action w :
  (∀ pwi sought,
     do_work_inbound n sought pwi =
       vassert (bool_decide (sought = prepared))
         "inbound partition work requested towards another state")
  ∧ (∀ pwi sought,
       do_work_outbound n sought pwi =
         vassert (bool_decide (sought = prepared) || bool_decide (sought = executed))
           "outbound partition work requested towards another state")
  ∧ (if legal_work (work st)
     then do_work_visit n (work st) = Ok tt
          ∧ do_work n st action = Ok (do_work_catch action)
     else ∃ msg, do_work_visit n (work st) = AssertFailed msg
                 ∧ do_work n st action = AssertFailed msg)
  ∧ match managed_ntps w !! n with
    | Some s =>
        if negb (is_running s) && is_leader s && negb (gate_closed w)
        then if legal_work (work s)
             then ∃ w', spawn_work_if_leader n w = Ok w'
                        ∧ gate w' = gate w ++ [task_of n s]
             else ∃ msg, spawn_work_if_leader n w = AssertFailed msg
        else True
    | None => True
    end.
Proof.
  split; [done|]. split; [by intros pwi []|]. split.
  - unfold do_work. destruct (legal_work (work st)) eqn:Hl.
    + by rewrite do_work_visit_legal.
    + destruct (do_work_visit_illegal n _ Hl) as [msg ->]. by exists msg.
  - destruct (managed_ntps w !! n) as [s|] eqn:Hn; [|done].
    destruct (is_running s) eqn:Hrun; [done|].
    destruct (is_leader s) eqn:Hlead; [|done].
    destruct (gate_closed w) eqn:Hc; [done|]. simpl.
    rewrite (spawn_work_if_leader_idle n w s Hn Hrun), Hlead, Hc. simpl.
    destruct (legal_work (work s)) eqn:Hl.
    + rewrite do_work_visit_legal by done. simpl. by eexists.
    + destruct (do_work_visit_illegal n _ Hl) as [msg ->]. by exists msg.
Qed.

(** C3, as the specification states it, fails on a worker that has been
    stopped: [stopped_worker] is reachable, manages nothing and leads the
    partition, and [perform_partition_work] inserts the entry as a leader
    and marks it running, yet spawns nothing, since the closed gate lets no
    action in. *)
Lemma perform_on_stopped_leader_spawns_nothing :
  reachable stopped_worker
  ∧ managed_ntps stopped_worker !! ntp_orders = None
  ∧ get_leader (leaders_table stopped_worker) ntp_orders = Some (self stopped_worker)
  ∧ ∀ early,
      perform_partition_work ntp_orders inbound_prepare early stopped_worker
      = Ok (mk_worker 1
              (mk_leaders {[ ntp_orders := 1%Z ]} {[ 1 := ntp_orders ]} 2)
              {[ ntp_orders := mk_ntp_state true true inbound_prepare 1 1 ]}
              [[shutting_down]; []] [] true,
            future_of 1).
Proof.
  split; [apply stopped_worker_reachable|]. split; [reflexivity|].
  split; [reflexivity|]. intros early.
  rewrite perform_partition_work_unmanaged by reflexivity.
  assert (spawn_work_if_leader ntp_orders
            (emplaced ntp_orders inbound_prepare stopped_worker)
          = Ok (mk_worker 1
                  (mk_leaders {[ ntp_orders := 1%Z ]} {[ 1 := ntp_orders ]} 2)
                  {[ ntp_orders := mk_ntp_state true true inbound_prepare 1 1 ]}
                  [[shutting_down]; []] [] true)) as -> by reflexivity.
  simpl. unfold returning. by rewrite complete_inline_idle by reflexivity.
Qed.

(** C3. For an NTP without a managed entry, [perform_partition_work]
    registers a leadership watcher for the NTP under a fresh id, records
    whether this node is the leader the leaders table names, inserts an
    entry with the given work and a new promise, and spawns the action
    exactly when this node leads and the gate is open (the worker has not
    been stopped); the entry is marked running exactly when this node leads.
    If the spawn meets work that is not a legal combination, the dispatch
    assertion fails.  The state so reached, [w2], is the one the call
    returns in when the action is still running, together with the future
    of the new promise; that promise stays unresolved for as long as the
    entry holds it, whatever the worker goes through.  With any completions inside the call, the call returns
    in the state they lead to from [w2], and if the entry is still managed
    then (as it always is when nothing was spawned), that state is [w2] and
    what is returned is the future of the new promise. *)
Theorem perform_on_unmanaged_ntp n pw early w :
  attainable w → managed_ntps w !! n = None →
  let leader := bool_decide (Some (self w) = get_leader (leaders_table w) n) in
  let spawned := leader && negb (gate_closed w) in
  let sub := next_notification_id (leaders_table w) in
  let p := length (promises w) in
  unsubscribed w sub ∧ promises w !! p = None
  ∧ if spawned && negb (legal_work pw)
    then ∃ msg, perform_partition_work n pw early w = AssertFailed msg
                ∧ dispatch_failure msg
    else ∃ w2 w' f,
      perform_partition_work n pw [] w = Ok (w2, future_of p)
      ∧ subscribed w2 sub n
      ∧ managed_ntps w2 =
          <[n := mk_ntp_state leader leader pw p sub]> (managed_ntps w)
      ∧ gate w2 = (if spawned
                   then gate w ++ [mk_task n (migration_id pw) (sought_state pw)]
                   else gate w)
      ∧ unresolved w2 p
      ∧ (∀ w'' st, runs w2 w'' → managed_ntps w'' !! n = Some st →
                   promise st = p → unresolved w'' p)
      ∧ perform_partition_work n pw early w = Ok (w', f)
      ∧ complete_inline early (length (gate w)) w2 = Ok w'
      ∧ (spawned = false ∨ is_Some (managed_ntps w' !! n) →
         w' = w2 ∧ f = future_of p).
Proof.
  intros Ha Hn. simpl.
  destruct (attainable_inv w Ha) as [Hinv _].
  set (leader := bool_decide (Some (self w) = get_leader (leaders_table w) n)).
  set (st1 := mk_ntp_state leader false pw (length (promises w))
                (next_notification_id (leaders_table w))).
  assert (managed_ntps (emplaced n pw w) !! n = Some st1) as Hn1
    by (unfold emplaced; simpl; by rewrite lookup_insert_eq).
  pose proof (perform_after_spawn n early (emplaced n pw w) st1 Hn1 eq_refl)
    as Hcall.
  pose proof (perform_after_spawn n [] (emplaced n pw w) st1 Hn1 eq_refl)
    as Hcall0.
  rewrite !(perform_partition_work_unmanaged _ _ _ _ Hn).
  split.
  { unfold unsubscribed.
    destruct (watchers (leaders_table w) !! next_notification_id (leaders_table w))
      as [m|] eqn:E; [|done].
    apply (inv_leaders_wf _ Hinv) in E. lia. }
  split; [by apply lookup_ge_None_2|].
  change (is_leader st1 && negb (gate_closed (emplaced n pw w))
          && negb (legal_work (work st1)))
    with (leader && negb (gate_closed w) && negb (legal_work pw)) in *.
  change (length (gate (emplaced n pw w))) with (length (gate w)) in *.
  destruct (leader && negb (gate_closed w) && negb (legal_work pw)) eqn:E;
    [exact Hcall|].
  destruct Hcall as (w' & Hci & Hcall & Hcases).
  destruct Hcall0 as (w0 & Hci0 & Hcall0 & _).
  simpl in Hci0. injection Hci0 as <-.
  set (w2 := after_spawn n st1 (emplaced n pw w)) in *.
  assert (future_at n w2 = future_of (length (promises w))) as Hf.
  { unfold future_at, w2. by rewrite after_spawn_managed. }
  rewrite Hf in Hcall0.
  exists w2, w', (future_at n w').
  split; [exact Hcall0|].
  split; [unfold subscribed, w2; simpl; by rewrite lookup_insert_eq|].
  split; [unfold w2, after_spawn, emplaced; simpl; by rewrite insert_insert_eq|].
  split; [done|].
  split; [unfold unresolved, w2; simpl; by rewrite lookup_app_r, Nat.sub_diag|].
  split.
  { intros w'' st Hruns Hm <-.
    assert (attainable w'') as Ha''.
    { eapply attainable_runs; [|exact Hruns].
      apply (attainable_step (ev_perform n pw []) w); [done|].
      simpl. rewrite (perform_partition_work_unmanaged _ _ _ _ Hn).
      by rewrite Hcall0. }
    destruct (attainable_inv w'' Ha'') as [Hinv'' _].
    by apply (inv_unresolved _ Hinv'' n). }
  split; [exact Hcall|]. split; [exact Hci|].
  intros Hkept. destruct Hcases as [->|(Hs & ec & _ & ->)]; [done|].
  change (is_leader st1 && negb (gate_closed (emplaced n pw w)))
    with (leader && negb (gate_closed w)) in Hs.
  destruct Hkept as [Hkept|[st Hkept]]; [congruence|].
  simpl in Hkept. by rewrite unmanage_ntp_lookup in Hkept.
Qed.

(** The leader is asked to prepare the partition; the action throws at
    once, is spawned again inside the call, and is still running when the
    call returns. *)
Lemma perform_on_unmanaged_ntp_witness :
  unsubscribed fresh_worker 0 ∧ promises fresh_worker !! 0 = None
  ∧ ∃ w2 w' f,
      perform_partition_work ntp_orders inbound_prepare [] fresh_worker
        = Ok (w2, future_of 0)
      ∧ subscribed w2 0 ntp_orders
      ∧ managed_ntps w2 = <[ntp_orders := mk_ntp_state true true inbound_prepare 0 0]> ∅
      ∧ gate w2 = [mk_task ntp_orders 7 prepared]
      ∧ unresolved w2 0
      ∧ (∀ w'' st, runs w2 w'' → managed_ntps w'' !! ntp_orders = Some st →
                   promise st = 0 → unresolved w'' 0)
      ∧ perform_partition_work ntp_orders inbound_prepare [threw] fresh_worker
          = Ok (w', f)
      ∧ complete_inline [threw] 0 w2 = Ok w'
      ∧ (true = false ∨ is_Some (managed_ntps w' !! ntp_orders) →
         w' = w2 ∧ f = future_of 0).
Proof.
  exact (perform_on_unmanaged_ntp ntp_orders inbound_prepare [threw] fresh_worker
           (reachable_attainable _ fresh_worker_reachable) eq_refl).
Defined.

(** C4. For an NTP that already has a managed entry, a further
    [perform_partition_work] resolves the future of the entry as it was
    with [invalid_data_migration_state], gives the entry the new work and a
    new unresolved promise, keeps the subscription and the leadership flag
    (the leaders table is not touched), and then decides from that flag
    whether to spawn the new action: the entry is marked running exactly
    when [is_leader] holds, and the action enters the gate when moreover the
    gate is open; if the spawn meets work that is not a legal combination,
    the dispatch assertion fails.  The state so reached, [w2], is the one
    the call returns in when the action is still running; with any
    completions inside the call, the call returns in the state they lead to
    from [w2], in which the earlier future is still resolved with
    [invalid_data_migration_state], and which is [w2] if the entry is still
    managed. *)
Theorem perform_on_managed_ntp n pw early w st :
  attainable w → managed_ntps w !! n = Some st →
  let spawned := is_leader st && negb (gate_closed w) in
  let p := length (promises w) in
  p ≠ promise st
  ∧ if spawned && negb (legal_work pw)
    then ∃ msg, perform_partition_work n pw early w = AssertFailed msg
                ∧ dispatch_failure msg
    else ∃ w2 w' f,
      perform_partition_work n pw [] w = Ok (w2, future_of p)
      ∧ resolved_once w2 (promise st) invalid_data_migration_state
      ∧ unresolved w2 p
      ∧ managed_ntps w2 =
          <[n := mk_ntp_state (is_leader st) (is_leader st) pw p
                              (leadership_subscription st)]> (managed_ntps w)
      ∧ leaders_table w2 = leaders_table w
      ∧ gate w2 = (if spawned
                   then gate w ++ [mk_task n (migration_id pw) (sought_state pw)]
                   else gate w)
      ∧ perform_partition_work n pw early w = Ok (w', f)
      ∧ complete_inline early (length (gate w)) w2 = Ok w'
      ∧ resolved_once w' (promise st) invalid_data_migration_state
      ∧ (spawned = false ∨ is_Some (managed_ntps w' !! n) →
         w' = w2 ∧ f = future_of p).
Proof.
  intros Ha Hn. simpl.
  destruct (attainable_inv w Ha) as [Hinv _].
  pose proof (inv_unresolved _ Hinv n st Hn) as Hun.
  pose proof (lookup_lt_Some _ _ _ Hun) as Hlt.
  set (st1 := mk_ntp_state (is_leader st) false pw (length (promises w))
                (leadership_subscription st)).
  assert (managed_ntps (reused n pw st w) !! n = Some st1) as Hn1
    by (unfold reused; simpl; by rewrite lookup_insert_eq).
  pose proof (perform_after_spawn n early (reused n pw st w) st1 Hn1 eq_refl)
    as Hcall.
  pose proof (perform_after_spawn n [] (reused n pw st w) st1 Hn1 eq_refl)
    as Hcall0.
  rewrite !(perform_partition_work_managed _ _ _ _ _ Hn).
  split; [lia|].
  change (is_leader st1 && negb (gate_closed (reused n pw st w))
          && negb (legal_work (work st1)))
    with (is_leader st && negb (gate_closed w) && negb (legal_work pw)) in *.
  change (length (gate (reused n pw st w))) with (length (gate w)) in *.
  destruct (is_leader st && negb (gate_closed w) && negb (legal_work pw)) eqn:E;
    [exact Hcall|].
  destruct Hcall as (w' & Hci & Hcall & Hcases).
  destruct Hcall0 as (w0 & Hci0 & Hcall0 & _).
  simpl in Hci0. injection Hci0 as <-.
  set (w2 := after_spawn n st1 (reused n pw st w)) in *.
  assert (future_at n w2 = future_of (length (promises w))) as Hf.
  { unfold future_at, w2. by rewrite after_spawn_managed. }
  rewrite Hf in Hcall0.
  assert (resolved_once w2 (promise st) invalid_data_migration_state) as Hres.
  { unfold resolved_once, w2, unresolved in *. simpl.
    rewrite lookup_app_l by (by rewrite length_set_value).
    by rewrite (lookup_set_value_eq _ _ _ []). }
  assert (worker_inv w2) as Hinv2.
  { rewrite <- (perform_partition_work_managed _ _ _ _ _ Hn) in Hcall0.
    by eapply worker_inv_perform. }
  exists w2, w', (future_at n w').
  split; [exact Hcall0|]. split; [exact Hres|].
  split.
  { unfold unresolved, w2. simpl.
    by rewrite lookup_app_r, length_set_value, Nat.sub_diag
      by (rewrite length_set_value; lia). }
  split; [unfold w2, after_spawn, reused; simpl; by rewrite insert_insert_eq|].
  split; [done|]. split; [done|].
  split; [exact Hcall|]. split; [exact Hci|].
  split.
  { eapply (updates_ind (fun _ => False)
              (fun w0 => resolved_once w0 (promise st) invalid_data_migration_state));
      [|by eapply complete_inline_updates|done|done].
    intros w3 w4 Hu Hinv3. by eapply resolved_update. }
  intros Hkept. destruct Hcases as [->|(Hs & ec & _ & ->)]; [done|].
  change (is_leader st1 && negb (gate_closed (reused n pw st w)))
    with (is_leader st && negb (gate_closed w)) in Hs.
  destruct Hkept as [Hkept|[st' Hkept]]; [congruence|].
  simpl in Hkept. by rewrite unmanage_ntp_lookup in Hkept.
Qed.

(** The work of the running entry is replaced, and the new action fails
    with a transport error inside the call. *)
Lemma perform_on_managed_ntp_witness :
  1 ≠ 0
  ∧ ∃ w2 w' f,
      perform_partition_work ntp_orders outbound_execute [] leading_worker
        = Ok (w2, future_of 1)
      ∧ resolved_once w2 0 invalid_data_migration_state
      ∧ unresolved w2 1
      ∧ managed_ntps w2 =
          <[ntp_orders := mk_ntp_state true true outbound_execute 1 0]>
            (managed_ntps leading_worker)
      ∧ leaders_table w2 = leaders_table leading_worker
      ∧ gate w2 = gate leading_worker ++ [mk_task ntp_orders 8 executed]
      ∧ perform_partition_work ntp_orders outbound_execute
          [returned transport_failure] leading_worker = Ok (w', f)
      ∧ complete_inline [returned transport_failure] 1 w2 = Ok w'
      ∧ resolved_once w' 0 invalid_data_migration_state
      ∧ (true = false ∨ is_Some (managed_ntps w' !! ntp_orders) →
         w' = w2 ∧ f = future_of 1).
Proof.
  exact (perform_on_managed_ntp ntp_orders outbound_execute
           [returned transport_failure] leading_worker leading_entry
           (reachable_attainable _ leading_worker_reachable) eq_refl).
Defined.

(** C5. [abort_partition_work(ntp, migration_id, sought_state)] removes the
    entry of [ntp] and resolves its future with
    [invalid_data_migration_state] when the entry's work carries exactly that
    migration id and sought state; in every other case (no entry, or an
    entry for another migration or another sought state) the worker is left
    exactly as it was. *)
Theorem abort_cancels_matching_entry_only n mid sought w :
  reachable w →
  let w' := abort_partition_work n mid sought w in
  match managed_ntps w !! n with
  | Some st =>
      if bool_decide (migration_id (work st) = mid ∧ sought_state (work st) = sought)
      then managed_ntps w' = delete n (managed_ntps w)
           ∧ resolved_once w' (promise st) invalid_data_migration_state
           ∧ unsubscribed w' (leadership_subscription st)
           ∧ gate w' = gate w
      else w' = w
  | None => w' = w
  end.
Proof.
  intros Hr. simpl. destruct (reachable_inv w Hr) as [Hinv _].
  unfold abort_partition_work.
  destruct (managed_ntps w !! n) as [st|] eqn:Hn; [|done].
  destruct (decide (migration_id (work st) = mid)) as [Hm|Hm],
           (decide (sought_state (work st) = sought)) as [Hs|Hs].
  - rewrite !bool_decide_eq_true_2 by done. simpl.
    destruct (unmanage_ntp_effect n invalid_data_migration_state w st Hinv Hn)
      as (? & ? & ? & _ & _ & ? & _).
    done.
  - rewrite (bool_decide_eq_false_2 (sought_state _ = _)) by done.
    rewrite andb_false_r. rewrite bool_decide_eq_false_2 by (by intros [? ?]). done.
  - rewrite (bool_decide_eq_false_2 (migration_id _ = _)) by done. simpl.
    rewrite bool_decide_eq_false_2 by (by intros [? ?]). done.
  - rewrite (bool_decide_eq_false_2 (migration_id _ = _)) by done. simpl.
    rewrite bool_decide_eq_false_2 by (by intros [? ?]). done.
Qed.

Lemma abort_cancels_matching_entry_only_witness :
  let w' := abort_partition_work ntp_orders 7 prepared leading_worker in
  managed_ntps w' = delete ntp_orders (managed_ntps leading_worker)
  ∧ resolved_once w' 0 invalid_data_migration_state
  ∧ unsubscribed w' 0
  ∧ gate w' = gate leading_worker.
Proof.
  exact (abort_cancels_matching_entry_only ntp_orders 7 prepared leading_worker
           leading_worker_reachable).
Defined.




(** C7, as the specification states it, fails on a worker that has been
    stopped: [stopped_follower] is reachable and manages the partition with
    an idle entry that does not lead; the notification that node 2 now
    leads turns the flag and marks the entry running, yet spawns nothing,
    since the closed gate lets no action in. *)
Lemma leader_gained_after_stop_spawns_nothing :
  reachable stopped_follower
  ∧ managed_ntps stopped_follower !! ntp_orders
    = Some (mk_ntp_state false false inbound_prepare 0 0)
  ∧ leadership_callback ntp_orders 1 2 stopped_follower
    = Ok (mk_worker 2
            (mk_leaders {[ ntp_orders := 1%Z ]} {[ 0 := ntp_orders ]} 1)
            {[ ntp_orders := mk_ntp_state true true inbound_prepare 0 0 ]}
            [[]] [] true).
Proof.
  split; [apply stopped_follower_reachable|]. split; reflexivity.
Qed.

(** C7. The callback registered for a managed NTP compares the notified
    leader with this node and changes nothing but the entry's [is_leader]
    flag, except when the flag turns to leader while no action runs: then
    the entry is marked running and, if the gate is open (the worker has not
    been stopped), its action is spawned; if that spawn meets work that is
    not a legal combination, the dispatch assertion fails.  Nothing leaves
    the gate: an action in flight when leadership is lost is not cancelled,
    and when it completes its result is handled as usual, a terminal code
    unmanaging the entry and resolving its promise.  A retry follows the new
    flag: after a retryable completion the entry is marked running exactly
    when the notified leader was this node, and the action is spawned again
    when moreover the gate is open. *)
Theorem leadership_update_sets_flag_and_spawns n term leader w st :
  attainable w → managed_ntps w !! n = Some st →
  let now := bool_decide (self w = leader) in
  let turned := now && negb (is_leader st) && negb (is_running st) in
  let spawned := turned && negb (gate_closed w) in
  if spawned && negb (legal_work (work st))
  then ∃ msg, leadership_callback n term leader w = AssertFailed msg
              ∧ dispatch_failure msg
  else ∃ w',
    leadership_callback n term leader w = Ok w'
    ∧ managed_ntps w' =
        <[n := mk_ntp_state now (is_running st || turned) (work st)
                            (promise st) (leadership_subscription st)]>
          (managed_ntps w)
    ∧ promises w' = promises w ∧ leaders_table w' = leaders_table w
    ∧ gate_closed w' = gate_closed w
    ∧ gate w' = (if spawned then gate w ++ [task_of n st] else gate w)
    ∧ ∀ ec,
        ∃ w'',
          handle_operation_result
            n (migration_id (work st)) (sought_state (work st)) ec w' = Ok w''
          ∧ if terminal ec
            then managed_ntps w'' = delete n (managed_ntps w)
                 ∧ resolved_once w'' (promise st) ec
            else managed_ntps w'' =
                   <[n := mk_ntp_state now now (work st)
                                       (promise st) (leadership_subscription st)]>
                     (managed_ntps w)
                 ∧ gate w'' = (if now && negb (gate_closed w)
                               then gate w' ++ [task_of n st] else gate w').
Proof.
  intros Ha Hn. simpl.
  pose proof (handle_leadership_update_cases n (bool_decide (self w = leader)) w st Hn)
    as Hupd.
  simpl in Hupd. unfold leadership_callback.
  set (now := bool_decide (self w = leader)) in *.
  set (turned := now && negb (is_leader st) && negb (is_running st)) in *.
  destruct (turned && negb (gate_closed w) && negb (legal_work (work st))) eqn:E;
    [exact Hupd|].
  eexists. split; [exact Hupd|]. simpl.
  split; [done|]. split; [done|]. split; [done|]. split; [done|]. split; [done|].
  intros ec.
  set (w' := mk_worker _ _ _ _ _ _) in *.
  assert (attainable w') as Ha'.
  { apply (attainable_step (ev_leadership n term leader) w); [done|]. exact Hupd. }
  destruct (attainable_inv w' Ha') as [Hinv' Hd'].
  set (st' := mk_ntp_state now (is_running st || turned) (work st) (promise st)
                (leadership_subscription st)).
  assert (managed_ntps w' !! n = Some st') as Hn'
    by (unfold w'; simpl; apply lookup_insert_eq).
  destruct (terminal ec) eqn:Ht.
  - destruct (handle_operation_result_terminal n ec w' st' Hinv' Hn' Ht)
      as (w'' & Hres & Hm' & Hp & _).
    exists w''. split; [exact Hres|]. split; [|exact Hp].
    rewrite Hm'. unfold w'. simpl. by rewrite delete_insert_eq.
  - pose proof (handle_operation_result_retry_any n ec w' st' Hn' Ht) as Hret.
    simpl in Hret. rewrite Hret.
    + eexists. split; [done|]. unfold after_spawn. simpl.
      split; [by rewrite insert_insert_eq|done].
    + intros Hl Hc. apply (Hd' Hc n st' Hn'). by left.
Qed.

(** Node 2 takes over the partition while node 1 is preparing it: the flag
    falls, the action in flight stays in the gate, and when it fails with a
    transport error it is not retried. *)
Lemma leadership_update_sets_flag_and_spawns_witness :
  ∃ w',
    leadership_callback ntp_orders 5 2 leading_worker = Ok w'
    ∧ managed_ntps w' =
        <[ntp_orders := mk_ntp_state false true inbound_prepare 0 0]>
          (managed_ntps leading_worker)
    ∧ promises w' = promises leading_worker
    ∧ leaders_table w' = leaders_table leading_worker
    ∧ gate_closed w' = gate_closed leading_worker
    ∧ gate w' = gate leading_worker
    ∧ ∀ ec,
        ∃ w'',
          handle_operation_result ntp_orders 7 prepared ec w' = Ok w''
          ∧ if terminal ec
            then managed_ntps w'' = delete ntp_orders (managed_ntps leading_worker)
                 ∧ resolved_once w'' 0 ec
            else managed_ntps w'' =
                   <[ntp_orders := mk_ntp_state false false inbound_prepare 0 0]>
                     (managed_ntps leading_worker)
                 ∧ gate w'' = gate w'.
Proof.
  exact (leadership_update_sets_flag_and_spawns ntp_orders 5 2 leading_worker
           leading_entry (reachable_attainable _ leading_worker_reachable) eq_refl).
Defined.



(** C9. A completion that arrives for an NTP that is no longer managed, or
    with a migration id or a sought state other than those of the entry now
    managed, is dropped: [handle_operation_result] returns the worker as it
    was, so no entry changes, no promise is resolved, no subscription is
    touched and nothing is spawned. *)
Theorem stale_completion_is_discarded n mid sought ec w :
  managed_ntps w !! n = None
  ∨ (∃ st, managed_ntps w !! n = Some st
           ∧ (migration_id (work st) ≠ mid ∨ sought_state (work st) ≠ sought)) →
  handle_operation_result n mid sought ec w = Ok w.
Proof.
  unfold handle_operation_result.
  intros [->|(st & -> & [Hm|Hs])]; [done| |].
  - by rewrite (bool_decide_eq_true_2 _ Hm).
  - by rewrite (bool_decide_eq_true_2 _ Hs), orb_true_r.
Qed.

Lemma stale_completion_is_discarded_witness :
  handle_operation_result ntp_orders 6 prepared success leading_worker
  = Ok leading_worker.
Proof.
  apply (stale_completion_is_discarded ntp_orders 6 prepared success leading_worker).
  right. exists leading_entry. split; [reflexivity|]. left. simpl. lia.
Defined.

(** C10. Every managed entry of a reachable worker holds a leadership
    subscription that is registered for its NTP and a promise nothing has
    been set on.  [unmanage_ntp] removes that subscription, sets the promise
    once and erases the entry; and whenever an event makes an entry
    disappear from the map (an abort, a stop, a terminal completion), its
    subscription has been removed and its promise resolved exactly once,
    which is what [unmanage_ntp] does.  An entry that stays is again
    subscribed and unresolved. *)
Theorem managed_entries_are_subscribed_and_unresolved w e w' n st :
  reachable w → step e w = Ok w' →
  managed_ntps w !! n = Some st →
  (subscribed w (leadership_subscription st) n ∧ unresolved w (promise st))
  ∧ (∀ res,
       managed_ntps (unmanage_ntp n res w) = delete n (managed_ntps w)
       ∧ unsubscribed (unmanage_ntp n res w) (leadership_subscription st)
       ∧ resolved_once (unmanage_ntp n res w) (promise st) res)
  ∧ match managed_ntps w' !! n with
    | None =>
        unsubscribed w' (leadership_subscription st)
        ∧ ∃ ec, resolved_once w' (promise st) ec
    | Some st' =>
        subscribed w' (leadership_subscription st') n ∧ unresolved w' (promise st')
    end.
Proof.
  intros Hr Hstep Hn.
  destruct (reachable_inv w Hr) as [Hinv Hgate].
  destruct (step_inv e w w' Hinv Hgate Hstep) as [Hinv' _].
  split; [|split].
  - split; [exact (inv_subscribed _ Hinv n st Hn)|exact (inv_unresolved _ Hinv n st Hn)].
  - intros res.
    destruct (unmanage_ntp_effect n res w st Hinv Hn) as (? & ? & ? & _).
    done.
  - destruct (managed_ntps w' !! n) as [st'|] eqn:Hn'.
    + split; [exact (inv_subscribed _ Hinv' n st' Hn')|exact (inv_unresolved _ Hinv' n st' Hn')].
    + by apply (step_properly_unmanaged e w w' Hinv Hgate Hstep n st).
Qed.

Lemma managed_entries_are_subscribed_and_unresolved_witness :
  (subscribed leading_worker 0 ntp_orders ∧ unresolved leading_worker 0)
  ∧ (∀ res,
       managed_ntps (unmanage_ntp ntp_orders res leading_worker)
         = delete ntp_orders (managed_ntps leading_worker)
       ∧ unsubscribed (unmanage_ntp ntp_orders res leading_worker) 0
       ∧ resolved_once (unmanage_ntp ntp_orders res leading_worker) 0 res)
  ∧ unsubscribed (set_gate [] (unmanage_ntp ntp_orders success leading_worker)) 0
  ∧ ∃ ec,
      resolved_once (set_gate [] (unmanage_ntp ntp_orders success leading_worker))
                    0 ec.
Proof.
  exact (managed_entries_are_subscribed_and_unresolved
           leading_worker (ev_finish 0 (returned success))
           (set_gate [] (unmanage_ntp ntp_orders success leading_worker))
           ntp_orders leading_entry
           leading_worker_reachable eq_refl eq_refl).
Defined.

(** * Further properties of the worker *)

(** ** Promises along the updates *)

Lemma promise_inv_update S w w' :
  update S w w' → worker_inv w → promise_inv w → promise_inv w'.
Proof.
  intros Hu Hinv HP. destruct Hu as
    [w n st st' Hn Hp Hsub Hwork|w g|w c|w n leader|w it res st Hit
    |w n pw Hn HS|w n pw st Hn HS].
  - intros p vs Hl. destruct (HP p vs Hl) as [(-> & m & s & Hm & Hps)|?];
      [left|by right].
    split; [done|]. simpl. destruct (decide (n = m)) as [<-|Hne].
    + exists n, st'. rewrite lookup_insert_eq. split; [done|]. congruence.
    + exists m, s. by rewrite lookup_insert_ne.
  - done.
  - done.
  - done.
  - rewrite (unmanage_ntp_managed _ _ _ _ Hit). intros p vs. simpl.
    pose proof (inv_unresolved _ Hinv _ _ Hit) as Hun. unfold unresolved in Hun.
    destruct (decide (promise st = p)) as [<-|Hne].
    + rewrite (lookup_set_value_eq _ _ _ [] Hun). intros [= <-]. right. by eexists.
    + rewrite lookup_set_value_ne by done. intros Hl.
      destruct (HP p vs Hl) as [(-> & m & s & Hm & Hps)|?]; [left|by right].
      split; [done|]. exists m, s. split; [|done].
      rewrite lookup_delete_ne; [done|]. intros <-. congruence.
  - unfold emplaced. intros p vs. simpl.
    destruct (decide (p < length (promises w))) as [Hlt|Hge].
    + rewrite lookup_app_l by done. intros Hl.
      destruct (HP p vs Hl) as [(-> & m & s & Hm & Hps)|?]; [left|by right].
      split; [done|]. exists m, s. split; [|done].
      rewrite lookup_insert_ne; [done|]. intros <-. congruence.
    + rewrite lookup_app_r by lia.
      destruct (p - length (promises w)) as [|k] eqn:E; simpl; [|done].
      intros [= <-]. left. split; [done|].
      eexists n, _. rewrite lookup_insert_eq. split; [done|]. simpl. lia.
  - unfold reused. intros p vs. simpl.
    pose proof (inv_unresolved _ Hinv _ _ Hn) as Hun. unfold unresolved in Hun.
    destruct (decide (p < length (promises w))) as [Hlt|Hge].
    + rewrite lookup_app_l by by rewrite length_set_value.
      destruct (decide (promise st = p)) as [<-|Hne].
      * rewrite (lookup_set_value_eq _ _ _ [] Hun). intros [= <-].
        right. by eexists.
      * rewrite lookup_set_value_ne by done. intros Hl.
        destruct (HP p vs Hl) as [(-> & m & s & Hm & Hps)|?]; [left|by right].
        split; [done|]. exists m, s. split; [|done].
        rewrite lookup_insert_ne; [done|]. intros <-. congruence.
    + rewrite lookup_app_r by (rewrite length_set_value; lia).
      rewrite length_set_value.
      destruct (p - length (promises w)) as [|k] eqn:E; simpl; [|done].
      intros [= <-]. left. split; [done|].
      eexists n, _. rewrite lookup_insert_eq. split; [done|]. simpl. lia.
Qed.

Lemma reachable_promise_inv w : reachable w → promise_inv w.
Proof.
  induction 1 as [self_id lt Hlt|w e w' Hr IH Hstep].
  - intros p vs. simpl. by rewrite lookup_nil.
  - destruct (reachable_inv w Hr) as [Hinv _].
    eapply (updates_ind _ promise_inv); [|by eapply step_updates|done|done].
    intros w1 w2 Hu. by eapply promise_inv_update.
Qed.

(** ** Watchers along the updates *)

Lemma watchers_inv_update S lt0 w w' :
  leaders_wf lt0 → update S w w' → watchers_inv lt0 w → watchers_inv lt0 w'.
Proof.
  intros Hwf Hu [Hf Ho Ha Hn]. destruct Hu as
    [w n st st' Hst Hp Hsub Hwork|w g|w c|w n leader|w it res st Hit
    |w n pw Hnone HS|w n pw st Hst HS].
  - split; simpl; try done.
    + intros i m Hi. destruct (Ho i m Hi) as [?|(s & Hm & Hs)]; [by left|right].
      destruct (decide (n = m)) as [<-|Hne].
      * exists st'. rewrite lookup_insert_eq. split; [done|]. congruence.
      * exists s. by rewrite lookup_insert_ne.
    + intros m s. destruct (decide (n = m)) as [<-|Hne].
      * rewrite lookup_insert_eq. intros [= <-]. rewrite Hsub. eauto.
      * rewrite lookup_insert_ne by done. eauto.
  - by split.
  - by split.
  - by split.
  - rewrite (unmanage_ntp_managed _ _ _ _ Hit). split; simpl; try done.
    + intros i m Hi. pose proof (Hwf _ _ Hi). pose proof (Ha _ _ Hit).
      rewrite lookup_delete_ne by lia. eauto.
    + intros i m Hi. apply lookup_delete_Some in Hi as [Hne Hi].
      destruct (Ho i m Hi) as [?|(s & Hm & Hs)]; [by left|right].
      exists s. split; [|done]. rewrite lookup_delete_ne; [done|].
      intros <-. congruence.
    + intros m s Hm. apply lookup_delete_Some in Hm as [_ Hm]. eauto.
  - unfold emplaced. split; simpl.
    + intros i m Hi. pose proof (Hwf _ _ Hi).
      rewrite lookup_insert_ne by lia. eauto.
    + intros i m.
      destruct (decide (next_notification_id (leaders_table w) = i)) as [<-|Hne].
      * rewrite lookup_insert_eq. intros [= <-]. right.
        eexists. by rewrite lookup_insert_eq.
      * rewrite lookup_insert_ne by done. intros Hi.
        destruct (Ho i m Hi) as [?|(s & Hm & Hs)]; [by left|right].
        exists s. split; [|done]. rewrite lookup_insert_ne; [done|].
        intros <-. congruence.
    + intros m s. destruct (decide (n = m)) as [<-|Hne].
      * rewrite lookup_insert_eq. by intros [= <-].
      * rewrite lookup_insert_ne by done. eauto.
    + lia.
  - unfold reused. split; simpl; try done.
    + intros i m Hi. destruct (Ho i m Hi) as [?|(s & Hm & Hs)]; [by left|right].
      destruct (decide (n = m)) as [<-|Hne].
      * eexists. rewrite lookup_insert_eq. split; [done|]. simpl. congruence.
      * exists s. by rewrite lookup_insert_ne.
    + intros m s. destruct (decide (n = m)) as [<-|Hne].
      * rewrite lookup_insert_eq. intros [= <-]. simpl. eauto.
      * rewrite lookup_insert_ne by done. eauto.
Qed.

Lemma steps_watchers_inv lt0 w w' :
  leaders_wf lt0 → steps w w' → watchers_inv lt0 w → watchers_inv lt0 w'.
Proof.
  intros Hwf Hs. induction Hs as [|w e w1 w2 Hstep _ IH]; [done|].
  intros Hw. apply IH.
  apply step_updates in Hstep. clear IH.
  induction Hstep as [|? ? ? Hu _ IH]; [done|].
  apply IH. by eapply watchers_inv_update.
Qed.

(** X1. In every reachable state each promise the worker has made is in one
    of two conditions: nothing has been set on it and a managed entry holds
    it, or exactly one value has been set on it.  No promise is ever set
    twice, and no unresolved promise is left without an entry. *)
Theorem promises_are_held_or_set_once w p vs :
  reachable w → promises w !! p = Some vs →
  (vs = [] ∧ ∃ n st, managed_ntps w !! n = Some st ∧ promise st = p)
  ∨ (∃ ec, vs = [ec]).
Proof. intros Hr. by apply reachable_promise_inv. Qed.

Lemma promises_are_held_or_set_once_witness :
  (@nil errc = [] ∧ ∃ n st, managed_ntps leading_worker !! n = Some st ∧ promise st = 0)
  ∨ (∃ ec, @nil errc = [ec]).
Proof.
  exact (promises_are_held_or_set_once leading_worker 0 []
           leading_worker_reachable eq_refl).
Defined.

(** X2. Once a value has been set on a promise, no later event changes what
    the promise holds: a future resolved with a code keeps that code through
    every run of the worker. *)
Theorem resolved_promise_never_changes w w' p ec :
  reachable w → steps w w' →
  resolved_once w p ec → resolved_once w' p ec.
Proof.
  intros Hr Hs. unfold resolved_once.
  induction Hs as [|w e w1 w2 Hstep _ IH]; [done|].
  intros Hl. apply IH; [by eapply reachable_step|].
  destruct (reachable_inv w Hr) as [Hinv _].
  eapply (updates_ind _ (fun w0 => promises w0 !! p = Some [ec]));
    [|by eapply step_updates|done|done].
  intros w3 w4 Hu Hinv3. by eapply settled_update.
Qed.

Lemma resolved_promise_never_changes_witness :
  resolved_once (set_gate [] aborted_worker) 0 invalid_data_migration_state.
Proof.
  apply (resolved_promise_never_changes aborted_worker).
  - apply (reachable_step leading_worker (ev_abort ntp_orders 7 prepared));
      [apply leading_worker_reachable|reflexivity].
  - apply (steps_step _ (ev_finish 0 stub_action) (set_gate [] aborted_worker));
      [reflexivity|apply steps_refl].
  - reflexivity.
Defined.

Lemma runs_promise_inv w w' :
  runs w w' → worker_inv w → promise_inv w → promise_inv w'.
Proof.
  induction 1 as [w|w e w1 w2 Hstep _ IH|w w2 _ IH]; intros Hinv HP; [done|..].
  - destruct (updates_ind _ promise_inv (promise_inv_update _)
                w w1 (step_updates e w w1 Hstep) Hinv HP) as [Hinv1 HP1].
    by apply IH.
  - destruct (updates_ind (fun _ => False) promise_inv (promise_inv_update _)
                w (stop w) (stop_updates _ w) Hinv HP) as [Hinv1 HP1].
    by apply IH.
Qed.

Lemma attainable_promise_inv w : attainable w → promise_inv w.
Proof.
  intros (self_id & lt & Hwf & Hruns).
  eapply runs_promise_inv; [exact Hruns|by apply worker_inv_new|].
  intros p vs. simpl. by rewrite lookup_nil.
Qed.

(** X3. Once [stop] has cancelled the entries and closed the gate, every
    promise the worker ever made has exactly one value set on it: no future
    handed out before the call is still pending when [stop] starts to wait.
    The same holds when a call of [stop] that nothing disturbed returns. *)
Theorem stop_leaves_no_promise_pending w :
  attainable w →
  (∀ p vs, promises (stop w) !! p = Some vs → ∃ ec, vs = [ec])
  ∧ (∀ actions w' p vs, stop_undisturbed actions w = Ok w' →
       promises w' !! p = Some vs → ∃ ec, vs = [ec]).
Proof.
  intros Ha. split.
  - intros p vs Hl.
    assert (attainable (stop w)) as Ha'
      by (eapply attainable_runs; [exact Ha|apply runs_stop, runs_refl]).
    destruct (attainable_promise_inv _ Ha' p vs Hl)
      as [(_ & n & st & Hn & _)|?]; [|done].
    rewrite stop_managed, lookup_empty in Hn. done.
  - intros actions w' p vs Hstop Hl.
    destruct (stop_returns actions w) as (w2 & Hstop2 & Hm & _).
    assert (w2 = w') as -> by congruence.
    assert (attainable w') as Ha' by by apply (attainable_step (ev_stop actions) w).
    destruct (attainable_promise_inv w' Ha' p vs Hl)
      as [(_ & n & st & Hn & _)|?]; [|done].
    rewrite Hm, lookup_empty in Hn. done.
Qed.

Lemma stop_leaves_no_promise_pending_witness :
  (∀ p vs, promises (stop leading_worker) !! p = Some vs → ∃ ec, vs = [ec])
  ∧ (∀ actions w' p vs, stop_undisturbed actions leading_worker = Ok w' →
       promises w' !! p = Some vs → ∃ ec, vs = [ec]).
Proof.
  exact (stop_leaves_no_promise_pending leading_worker
           (reachable_attainable _ leading_worker_reachable)).
Defined.

(** X4. The worker touches no watcher but its own.  Seen from the leaders
    table [lt0] it was constructed with: every watcher of [lt0] stays
    registered; every other watcher is the subscription of a managed entry
    for that entry's NTP; and whenever no entry is managed, the table holds
    exactly the watchers of [lt0] again, so no subscription leaks. *)
Theorem worker_owns_its_watchers self_id lt0 w :
  leaders_wf lt0 → steps (new_worker self_id lt0) w →
  (∀ i n, watchers lt0 !! i = Some n →
          watchers (leaders_table w) !! i = Some n)
  ∧ (∀ i n, watchers (leaders_table w) !! i = Some n →
            watchers lt0 !! i = Some n
            ∨ ∃ st, managed_ntps w !! n = Some st
                    ∧ leadership_subscription st = i)
  ∧ (managed_ntps w = ∅ → watchers (leaders_table w) = watchers lt0).
Proof.
  intros Hwf Hs.
  assert (watchers_inv lt0 (new_worker self_id lt0)) as H0.
  { split; simpl;
      [done|intros i n Hi; by left|intros n st; by rewrite lookup_empty|done]. }
  destruct (steps_watchers_inv lt0 _ _ Hwf Hs H0) as [Hf Ho _ _].
  split; [done|]. split; [done|].
  intros Hempty. apply map_eq. intros i.
  destruct (watchers (leaders_table w) !! i) as [n|] eqn:Hi.
  - destruct (Ho i n Hi) as [?|(st & Hn & _)]; [done|].
    rewrite Hempty, lookup_empty in Hn. done.
  - destruct (watchers lt0 !! i) as [n|] eqn:Hi0; [|done].
    apply Hf in Hi0. congruence.
Qed.

Lemma worker_owns_its_watchers_witness :
  (∀ i n, watchers leaders_node1 !! i = Some n →
          watchers (leaders_table leading_worker) !! i = Some n)
  ∧ (∀ i n, watchers (leaders_table leading_worker) !! i = Some n →
            watchers leaders_node1 !! i = Some n
            ∨ ∃ st, managed_ntps leading_worker !! n = Some st
                    ∧ leadership_subscription st = i)
  ∧ (managed_ntps leading_worker = ∅ →
     watchers (leaders_table leading_worker) = watchers leaders_node1).
Proof.
  apply (worker_owns_its_watchers 1 leaders_node1 leading_worker).
  - apply leaders_node1_wf.
  - apply (steps_step _ (ev_perform ntp_orders inbound_prepare []) leading_worker);
      [reflexivity|apply steps_refl].
Defined.

(** ** Which operations can fail, and how *)

Lemma spawn_idle_outcome it w st :
  managed_ntps w !! it = Some st → is_running st = false →
  ok_or_dispatch (spawn_work_if_leader it w) (legal_work (work st) = false).
Proof.
  intros Hit Hrun. rewrite (spawn_work_if_leader_idle _ _ _ Hit Hrun).
  destruct (is_leader st); [|left; by eexists].
  simpl. destruct (gate_closed w); [left; by eexists|].
  destruct (do_work_visit it (work st)) as [[]|msg] eqn:Hv; simpl.
  - left. by eexists.
  - right. apply do_work_visit_failure in Hv as [? ?]. eauto.
Qed.

Lemma handle_operation_result_outcome n mid sought ec w :
  ok_or_dispatch (handle_operation_result n mid sought ec w) (illegal_entry w).
Proof.
  unfold handle_operation_result.
  destruct (managed_ntps w !! n) as [st|] eqn:Hn; [|left; by eexists].
  destruct (_ || _); [left; by eexists|].
  destruct (_ && _); [|left; by eexists].
  destruct (spawn_idle_outcome n
              (set_managed_ntps (<[n := set_is_running false st]> (managed_ntps w)) w)
              (set_is_running false st))
    as [?|(Hl & ?)]; [simpl; by rewrite lookup_insert_eq|done|by left|right].
  split; [|done]. by exists n, st.
Qed.

Lemma handle_leadership_update_outcome n leader w :
  ok_or_dispatch (handle_leadership_update n leader w) (illegal_entry w).
Proof.
  unfold handle_leadership_update.
  destruct (managed_ntps w !! n) as [st|] eqn:Hn; [|left; by eexists].
  destruct (bool_decide _); [left; by eexists|].
  simpl. destruct (is_running st) eqn:Hrun; simpl; [left; by eexists|].
  destruct (spawn_idle_outcome n
              (set_managed_ntps (<[n := set_is_leader leader st]> (managed_ntps w)) w)
              (set_is_leader leader st))
    as [?|(Hl & ?)]; [simpl; by rewrite lookup_insert_eq|done|by left|right].
  split; [|done]. by exists n, st.
Qed.

Lemma finish_task_outcome i action w :
  ok_or_dispatch (finish_task i action w) (illegal_entry w).
Proof.
  unfold finish_task. destruct (gate w !! i) as [t|]; [|left; by eexists].
  destruct (handle_operation_result_outcome (task_ntp t) (task_migration_id t)
              (task_sought_state t) (do_work_catch action) w)
    as [[w1 ->]|(Hl & msg & -> & Hmsg)]; simpl.
  - left. by eexists.
  - right. eauto.
Qed.

Lemma illegal_entry_update S w w' :
  update S w w' → illegal_entry w' →
  illegal_entry w ∨ ∃ pw, S pw ∧ legal_work pw = false.
Proof.
  intros Hu (m & s & Hm & Hl). destruct Hu as
    [w n st st' Hn Hp Hsub Hwork|w g|w c|w n leader|w it res st Hit
    |w n pw Hn Hpw|w n pw st Hn Hpw]; try (left; by exists m, s).
  - left. simpl in Hm. destruct (decide (n = m)) as [<-|Hne].
    + rewrite lookup_insert_eq in Hm. injection Hm as <-.
      exists n, st. split; [done|congruence].
    + rewrite lookup_insert_ne in Hm by done. by exists m, s.
  - left. rewrite (unmanage_ntp_managed _ _ _ _ Hit) in Hm. simpl in Hm.
    apply lookup_delete_Some in Hm as [_ Hm]. by exists m, s.
  - unfold emplaced in Hm. simpl in Hm. destruct (decide (n = m)) as [<-|Hne].
    + rewrite lookup_insert_eq in Hm. injection Hm as <-. right. by exists pw.
    + rewrite lookup_insert_ne in Hm by done. left. by exists m, s.
  - unfold reused in Hm. simpl in Hm. destruct (decide (n = m)) as [<-|Hne].
    + rewrite lookup_insert_eq in Hm. injection Hm as <-. right. by exists pw.
    + rewrite lookup_insert_ne in Hm by done. left. by exists m, s.
Qed.

Lemma illegal_entry_updates S w w' :
  rtc (update S) w w' → illegal_entry w' →
  illegal_entry w ∨ ∃ pw, S pw ∧ legal_work pw = false.
Proof.
  induction 1 as [|w w1 w2 Hu _ IH]; [by left|].
  intros Hl. destruct (IH Hl) as [H1|?]; [|by right].
  by eapply illegal_entry_update.
Qed.

Lemma complete_inline_outcome S early k w :
  ok_or_dispatch (complete_inline early k w)
    (∃ w', rtc (update S) w w' ∧ illegal_entry w').
Proof.
  revert w. induction early as [|action early IH]; intros w; simpl;
    [left; by eexists|].
  destruct (finish_task_outcome k action w)
    as [[w1 Hf]|(Hl & msg & Hf & Hmsg)]; rewrite Hf; simpl.
  - destruct (IH w1) as [?|((w' & Hrtc & Hl) & ?)]; [by left|right].
    split; [|done]. exists w'. split; [|done].
    etrans; [by eapply finish_task_updates|done].
  - right. split; [by exists w|eauto].
Qed.

Lemma perform_outcome n pw early w :
  ok_or_dispatch (perform_partition_work n pw early w)
    (illegal_entry w ∨ legal_work pw = false).
Proof.
  assert (∀ w1 st1,
            update (eq pw) w w1 → managed_ntps w1 !! n = Some st1 →
            is_running st1 = false → work st1 = pw →
            ok_or_dispatch
              (w2 ← spawn_work_if_leader n w1; returning n early (length (gate w)) w2)
              (illegal_entry w ∨ legal_work pw = false)) as Hgen.
  { intros w1 st1 Hu Hn1 Hr1 Hw1.
    destruct (spawn_idle_outcome n w1 st1 Hn1 Hr1)
      as [[w2 Hsp]|(Hl & msg & Hsp & Hmsg)]; rewrite Hsp; simpl.
    - unfold returning.
      destruct (complete_inline_outcome (eq pw) early (length (gate w)) w2)
        as [[w3 Hc]|((w3 & Hrtc & Hl) & msg & Hc & Hmsg)]; rewrite Hc; simpl.
      + left. by eexists.
      + right. split; [|eauto].
        destruct (illegal_entry_updates (eq pw) w w3) as [?|(pw' & <- & ?)];
          [|done|by left|by right].
        eapply rtc_l; [exact Hu|]. etrans; [by eapply spawn_updates|done].
    - right. split; [|eauto]. right. congruence. }
  destruct (managed_ntps w !! n) as [st|] eqn:Hn.
  - rewrite (perform_partition_work_managed _ _ _ _ _ Hn).
    eapply Hgen;
      [by eapply update_reuse
      |unfold reused; simpl; by rewrite lookup_insert_eq|done|done].
  - rewrite (perform_partition_work_unmanaged _ _ _ _ Hn).
    eapply Hgen;
      [by eapply update_emplace
      |unfold emplaced; simpl; by rewrite lookup_insert_eq|done|done].
Qed.

Lemma step_outcome e w :
  ok_or_dispatch (step e w) (illegal_work_present e w).
Proof.
  destruct e as [n pw early|n mid sought|actions|n term leader|i action|n leader];
    simpl.
  - destruct (perform_outcome n pw early w)
      as [[r ->]|([Hl|Hl] & msg & -> & Hmsg)]; simpl.
    + left. by eexists.
    + right. split; [|eauto]. by left.
    + right. split; [|eauto]. right. by exists pw.
  - left. by eexists.
  - destruct (stop_returns actions w) as (w' & -> & _). left. by eexists.
  - destruct (handle_leadership_update_outcome n (bool_decide (self w = leader)) w)
      as [?|(Hl & ?)]; [by left|right]. split; [by left|done].
  - destruct (finish_task_outcome i action w)
      as [?|(Hl & ?)]; [by left|right]. split; [by left|done].
  - left. by eexists.
Qed.


(** X5. The only assertion of the worker an event can trip is the one in
    the dispatch of [do_work], and only when work with an illegal
    combination of kind and sought state is around, in an entry or in the
    call.  The assertion of [spawn_work_if_leader] ("work already running")
    never fails: every call site clears or checks [is_running] first. *)
Theorem only_dispatch_assertion_can_fail e w msg :
  step e w = AssertFailed msg →
  dispatch_failure msg ∧ illegal_work_present e w.
Proof.
  intros H. destruct (step_outcome e w) as [[w' Hok]|(Hl & msg' & Hf & Hmsg)];
    [congruence|].
  assert (msg' = msg) as -> by congruence. done.
Qed.

Lemma only_dispatch_assertion_can_fail_witness :
  dispatch_failure "inbound partition work requested towards another state"
  ∧ illegal_work_present (ev_perform ntp_orders inbound_execute []) fresh_worker.
Proof.
  exact (only_dispatch_assertion_can_fail
           (ev_perform ntp_orders inbound_execute []) fresh_worker _ eq_refl).
Defined.



(** ** Running entries and the gate *)

Lemma elem_of_delete_other (l : list task) i t x :
  x ∈ l → l !! i = Some t → x ≠ t → x ∈ delete i l.
Proof.
  intros [j Hj]%list_elem_of_lookup_1 Hi Hne.
  destruct (decide (j < i)) as [Hlt|Hge].
  - apply (list_elem_of_lookup_2 _ j). by rewrite list_lookup_delete_lt.
  - assert (j ≠ i) by (intros ->; congruence).
    apply (list_elem_of_lookup_2 _ (pred j)).
    rewrite list_lookup_delete_ge by lia.
    by replace (S (pred j)) with j by lia.
Qed.

Lemma elem_of_delete_last (l : list task) i t :
  i < length l → t ∈ delete i (l ++ [t]).
Proof.
  intros Hi. apply (list_elem_of_lookup_2 _ (pred (length l))).
  rewrite list_lookup_delete_ge by lia.
  replace (S (pred (length l))) with (length l) by lia.
  by rewrite lookup_app_r, Nat.sub_diag.
Qed.

Lemma running_inv_weaken it w : running_inv w → running_inv_but it w.
Proof. intros H Hc n st _. by apply H. Qed.

Lemma running_inv_but_insert it st w :
  running_inv_but it w →
  running_inv_but it (set_managed_ntps (<[it := st]> (managed_ntps w)) w).
Proof.
  intros H Hc n s Hne. simpl. rewrite lookup_insert_ne by done. by apply H.
Qed.

Lemma running_inv_spawn it w w' :
  running_inv_but it w → spawn_work_if_leader it w = Ok w' → running_inv w'.
Proof.
  intros Hbut. unfold spawn_work_if_leader.
  destruct (managed_ntps w !! it) as [st|] eqn:Hit.
  2:{ intros [= <-] Hc n s Hn. apply (Hbut Hc n s); [|done]. congruence. }
  destruct (is_running st) eqn:Hrun; simpl; [done|].
  destruct (is_leader st) eqn:Hlead; simpl.
  2:{ intros [= <-] Hc n s Hn. destruct (decide (n = it)) as [->|Hne].
      - assert (s = st) as -> by congruence. congruence.
      - by apply (Hbut Hc n s). }
  destruct (gate_closed w) eqn:Hcl;
    [intros [= <-] Hc; simpl in Hc; congruence|].
  destruct (do_work_visit it (work st)) as [u|] eqn:Hv; simpl; [|done].
  intros [= <-] Hc n s. simpl.
  destruct (decide (it = n)) as [<-|Hne].
  - rewrite lookup_insert_eq. intros [= <-] _.
    apply elem_of_app. right. by apply list_elem_of_singleton.
  - rewrite lookup_insert_ne by done. intros Hn Hr.
    apply elem_of_app. left. apply Hbut; [done|congruence|done|done].
Qed.

Lemma running_inv_unmanage it res w :
  running_inv w → running_inv (unmanage_ntp it res w).
Proof.
  intros H. unfold unmanage_ntp. destruct (managed_ntps w !! it) as [st|]; [|done].
  intros Hc n s Hn. simpl in *. apply lookup_delete_Some in Hn as [_ Hn].
  by apply (H Hc n s).
Qed.

Lemma running_inv_handle_operation_result n mid sought ec w w' :
  running_inv w → handle_operation_result n mid sought ec w = Ok w' →
  running_inv w'.
Proof.
  intros Hd. unfold handle_operation_result.
  destruct (managed_ntps w !! n) as [st|] eqn:Hn; [|by intros [= <-]].
  destruct (_ || _); [by intros [= <-]|].
  destruct (_ && _).
  - apply running_inv_spawn, running_inv_but_insert. by apply running_inv_weaken.
  - intros [= <-]. apply running_inv_unmanage.
    intros Hc m s. simpl. destruct (decide (n = m)) as [<-|Hne].
    + rewrite lookup_insert_eq. by intros [= <-].
    + rewrite lookup_insert_ne by done. by apply Hd.
Qed.

Lemma running_inv_handle_leadership_update n leader w w' :
  running_inv w → handle_leadership_update n leader w = Ok w' → running_inv w'.
Proof.
  intros Hd. unfold handle_leadership_update.
  destruct (managed_ntps w !! n) as [st|] eqn:Hn; [|by intros [= <-]].
  destruct (bool_decide _); [by intros [= <-]|].
  simpl. destruct (is_running st) eqn:Hrun; simpl.
  - intros [= <-] Hc m s. simpl. destruct (decide (n = m)) as [<-|Hne].
    + rewrite lookup_insert_eq. intros [= <-] _. by apply (Hd Hc n st).
    + rewrite lookup_insert_ne by done. by apply Hd.
  - apply running_inv_spawn, running_inv_but_insert. by apply running_inv_weaken.
Qed.

(** The gate only grows under [handle_operation_result]. *)
Lemma handle_operation_result_gate n mid sought ec w w' :
  handle_operation_result n mid sought ec w = Ok w' →
  ∃ more, gate w' = gate w ++ more.
Proof.
  unfold handle_operation_result.
  destruct (managed_ntps w !! n) as [st|] eqn:Hn;
    [|intros [= <-]; exists []; by rewrite app_nil_r].
  destruct (_ || _); [intros [= <-]; exists []; by rewrite app_nil_r|].
  destruct (_ && _).
  - erewrite spawn_work_if_leader_idle;
      [|simpl; by rewrite lookup_insert_eq|done].
    simpl. destruct (is_leader st);
      [|intros [= <-]; exists []; by rewrite app_nil_r].
    destruct (gate_closed w); [intros [= <-]; exists []; by rewrite app_nil_r|].
    destruct (do_work_visit n (work st)); simpl; [|done].
    intros [= <-]. by eexists.
  - intros [= <-]. exists []. rewrite app_nil_r.
    by destruct (gate_frame_unmanage n ec
                   (set_managed_ntps
                      (<[n := set_is_running false st]> (managed_ntps w)) w))
      as [_ ?]; unfold unmanage_ntp; simpl; rewrite lookup_insert_eq.
Qed.

(** An entry that runs after a completion carrying its ids was handled has
    been spawned again by that very call. *)
Lemma handle_operation_result_respawned n mid sought ec w w' st' :
  handle_operation_result n mid sought ec w = Ok w' →
  gate_closed w = false →
  managed_ntps w' !! n = Some st' → is_running st' = true →
  migration_id (work st') = mid → sought_state (work st') = sought →
  gate w' = gate w ++ [mk_task n mid sought].
Proof.
  unfold handle_operation_result. intros H Hc Hn' Hrun Hmid Hs.
  destruct (managed_ntps w !! n) as [st|] eqn:Hn;
    [|injection H as <-; congruence].
  destruct (bool_decide (migration_id (work st) ≠ mid)) eqn:E1.
  { simpl in H. injection H as <-. apply bool_decide_eq_true in E1.
    assert (st' = st) as -> by congruence. done. }
  destruct (bool_decide (sought_state (work st) ≠ sought)) eqn:E2.
  { simpl in H. injection H as <-. apply bool_decide_eq_true in E2.
    assert (st' = st) as -> by congruence. done. }
  simpl in H.
  apply bool_decide_eq_false in E1. apply bool_decide_eq_false in E2.
  assert (migration_id (work st) = mid) as Hm1
    by (destruct (decide (migration_id (work st) = mid)); [done|by destruct E1]).
  assert (sought_state (work st) = sought) as Hs1
    by (destruct (decide (sought_state (work st) = sought)); [done|by destruct E2]).
  destruct (_ && _).
  - erewrite spawn_work_if_leader_idle in H;
      [|simpl; by rewrite lookup_insert_eq|done].
    simpl in H. destruct (is_leader st).
    + rewrite Hc in H.
      destruct (do_work_visit n (work st)); simpl in H; [|done].
      injection H as <-. simpl. unfold task_of. simpl. by rewrite Hm1, Hs1.
    + injection H as <-. simpl in Hn'. rewrite lookup_insert_eq in Hn'.
      injection Hn' as <-. done.
  - injection H as <-. unfold unmanage_ntp in Hn'. simpl in Hn'.
    rewrite lookup_insert_eq in Hn'. simpl in Hn'.
    rewrite lookup_delete_eq in Hn'. done.
Qed.

Lemma running_inv_finish_task i action w w' :
  running_inv w → finish_task i action w = Ok w' → running_inv w'.
Proof.
  intros Hd. unfold finish_task.
  destruct (gate w !! i) as [t|] eqn:Hi; [|by intros [= <-]].
  destruct (handle_operation_result _ _ _ _ w) as [w1|] eqn:H; [|done].
  simpl. intros [= <-] Hc n s Hn Hrun. simpl in *.
  pose proof (running_inv_handle_operation_result _ _ _ _ _ _ Hd H) as Hd1.
  destruct (gate_frame_handle_operation_result _ _ _ _ _ _ H) as [Hc1 _].
  destruct (handle_operation_result_gate _ _ _ _ _ _ H) as [more Hg].
  destruct (decide (task_of n s = t)) as [Ht|Hne].
  - assert (gate w1 = gate w
              ++ [mk_task (task_ntp t) (task_migration_id t) (task_sought_state t)])
      as Hg1.
    { subst t. simpl in *.
      eapply handle_operation_result_respawned; [exact H|congruence|exact Hn|..];
        done. }
    rewrite Hg1. destruct t as [tn tm ts]. simpl in *.
    rewrite Ht. apply elem_of_delete_last. by eapply lookup_lt_Some.
  - eapply elem_of_delete_other; [by apply Hd1|rewrite Hg; by apply lookup_app_l_Some|done].
Qed.

Lemma running_inv_perform n pw early w w' f :
  running_inv w → perform_partition_work n pw early w = Ok (w', f) →
  running_inv w'.
Proof.
  intros Hd (w1 & w2 & Hprep & Hsp & Hc & _)%perform_stages.
  eapply (complete_inline_ind running_inv); [|..|exact Hc].
  - intros action w3 w4 H3. by apply running_inv_finish_task.
  - eapply running_inv_spawn; [|done].
    intros Hc1 m s Hne Hm Hrun.
    assert (gate_closed w = false ∧ managed_ntps w !! m = Some s
            ∧ gate w1 = gate w) as (Hc0 & Hm0 & ->).
    { destruct Hprep as [[_ ->]|(st & _ & ->)]; simpl in *;
        by rewrite lookup_insert_ne in Hm. }
    by apply (Hd Hc0 m s).
Qed.

Lemma step_running_inv e w w' :
  running_inv w → step e w = Ok w' → running_inv w'.
Proof.
  intros Hd.
  destruct e as [n pw early|n mid sought|actions|n term leader|i action|n leader];
    simpl.
  - destruct (perform_partition_work n pw early w) as [[w2 p]|] eqn:Hp; [|done].
    simpl. intros [= <-]. by eapply running_inv_perform.
  - intros [= <-]. unfold abort_partition_work.
    destruct (managed_ntps w !! n); [|done]. destruct (_ && _); [|done].
    by apply running_inv_unmanage.
  - intros Hstop. destruct (stop_returns actions w) as (w2 & Hstop2 & _ & Hc).
    assert (w2 = w') as -> by congruence. intros Hc'. congruence.
  - by apply running_inv_handle_leadership_update.
  - by apply running_inv_finish_task.
  - by intros [= <-].
Qed.

(** X7. While the gate is open, every entry marked running has an action in
    the gate whose continuation carries the entry's NTP, migration id and
    sought state: a running entry always has a completion on its way, so
    [is_running] never blocks an entry for good. *)
Theorem running_entry_has_action_in_flight w n st :
  reachable w → gate_closed w = false →
  managed_ntps w !! n = Some st → is_running st = true →
  task_of n st ∈ gate w.
Proof.
  intros Hr. revert n st.
  induction Hr as [self_id lt Hlt|w e w' Hr IH Hstep].
  - intros n st _. simpl. by rewrite lookup_empty.
  - intros n st Hc. by apply (step_running_inv e w w' (fun Hc0 n0 st0 => IH n0 st0 Hc0)).
Qed.

Lemma running_entry_has_action_in_flight_witness :
  mk_task ntp_orders 7 prepared ∈ gate leading_worker.
Proof.
  exact (running_entry_has_action_in_flight leading_worker ntp_orders leading_entry
           leading_worker_reachable eq_refl eq_refl eq_refl).
Defined.

(** ** Entries of other NTPs *)

Lemma spawn_frame it w w' m :
  spawn_work_if_leader it w = Ok w' → m ≠ it →
  managed_ntps w' !! m = managed_ntps w !! m.
Proof.
  unfold spawn_work_if_leader. intros H Hne.
  destruct (managed_ntps w !! it) as [st|]; [|by injection H as <-].
  destruct (is_running st); simpl in H; [done|].
  destruct (is_leader st); simpl in H; [|by injection H as <-].
  destruct (gate_closed w).
  - injection H as <-. simpl. by rewrite lookup_insert_ne.
  - destruct (do_work_visit it _); simpl in H; [|done].
    injection H as <-. simpl. by rewrite lookup_insert_ne.
Qed.

Lemma unmanage_frame it res w m :
  m ≠ it → managed_ntps (unmanage_ntp it res w) !! m = managed_ntps w !! m.
Proof.
  intros Hne. unfold unmanage_ntp.
  destruct (managed_ntps w !! it); [|done]. simpl. by rewrite lookup_delete_ne.
Qed.

Lemma handle_operation_result_frame n mid sought ec w w' m :
  handle_operation_result n mid sought ec w = Ok w' → m ≠ n →
  managed_ntps w' !! m = managed_ntps w !! m.
Proof.
  unfold handle_operation_result. intros H Hne.
  destruct (managed_ntps w !! n) as [st|]; [|by injection H as <-].
  destruct (_ || _); [by injection H as <-|].
  destruct (_ && _).
  - rewrite (spawn_frame _ _ _ _ H Hne). simpl. by rewrite lookup_insert_ne.
  - injection H as <-. rewrite unmanage_frame by done. simpl.
    by rewrite lookup_insert_ne.
Qed.

Lemma handle_leadership_update_frame n leader w w' m :
  handle_leadership_update n leader w = Ok w' → m ≠ n →
  managed_ntps w' !! m = managed_ntps w !! m.
Proof.
  unfold handle_leadership_update. intros H Hne.
  destruct (managed_ntps w !! n) as [st|]; [|by injection H as <-].
  destruct (bool_decide _); [by injection H as <-|].
  destruct (negb _).
  - rewrite (spawn_frame _ _ _ _ H Hne). simpl. by rewrite lookup_insert_ne.
  - injection H as <-. simpl. by rewrite lookup_insert_ne.
Qed.

Lemma spawn_gate it w w' :
  spawn_work_if_leader it w = Ok w' →
  gate w' = gate w ∨ ∃ t, task_ntp t = it ∧ gate w' = gate w ++ [t].
Proof.
  unfold spawn_work_if_leader. intros H.
  destruct (managed_ntps w !! it) as [st|]; [|injection H as <-; by left].
  destruct (is_running st); simpl in H; [done|].
  destruct (is_leader st); simpl in H; [|injection H as <-; by left].
  destruct (gate_closed w); [injection H as <-; by left|].
  destruct (do_work_visit it _); simpl in H; [|done].
  injection H as <-. right. by eexists (task_of it _).
Qed.

Lemma handle_operation_result_gate_ntp n mid sought ec w w' :
  handle_operation_result n mid sought ec w = Ok w' →
  gate w' = gate w ∨ ∃ t, task_ntp t = n ∧ gate w' = gate w ++ [t].
Proof.
  unfold handle_operation_result. intros H.
  destruct (managed_ntps w !! n) as [st|]; [|injection H as <-; by left].
  destruct (_ || _); [injection H as <-; by left|].
  destruct (_ && _).
  - by apply spawn_gate in H.
  - injection H as <-. left.
    by destruct (gate_frame_unmanage n ec
                   (set_managed_ntps
                      (<[n := set_is_running false st]> (managed_ntps w)) w))
      as [_ ?]; unfold unmanage_ntp; simpl; rewrite lookup_insert_eq.
Qed.

(** The completions inside a call of [perform_partition_work] for [n] are
    those of actions spawned for [n]. *)
Lemma finish_task_inline n k action w w' m :
  inline_gate n k w → finish_task k action w = Ok w' →
  inline_gate n k w' ∧ (m ≠ n → managed_ntps w' !! m = managed_ntps w !! m).
Proof.
  intros [Hlen Hntp]. unfold finish_task.
  destruct (gate w !! k) as [t|] eqn:Hk;
    [|intros [= <-]; split; [split; [done|by rewrite Hk]|done]].
  pose proof (Hntp t eq_refl) as Ht. pose proof (lookup_lt_Some _ _ _ Hk) as Hlt.
  destruct (handle_operation_result _ _ _ _ w) as [w1|] eqn:H; [|done].
  simpl. intros [= <-]. split.
  - unfold inline_gate. simpl.
    destruct (handle_operation_result_gate_ntp _ _ _ _ _ _ H)
      as [->|(t' & Ht' & ->)].
    + split; [rewrite length_delete by (by eexists); lia|].
      intros t0 Hl. apply lookup_lt_Some in Hl.
      rewrite length_delete in Hl by (by eexists). lia.
    + assert (is_Some ((gate w ++ [t']) !! k)) as Hsome
        by (exists t; by apply lookup_app_l_Some).
      split; [rewrite length_delete, length_app by done; simpl; lia|].
      intros t0. rewrite list_lookup_delete_ge by lia.
      rewrite lookup_app_r by lia.
      replace (S k - length (gate w)) with 0 by lia. simpl.
      intros [= <-]. congruence.
  - intros Hne. simpl. eapply handle_operation_result_frame; [exact H|].
    congruence.
Qed.

Lemma perform_frame n pw early w w' f m :
  perform_partition_work n pw early w = Ok (w', f) → m ≠ n →
  managed_ntps w' !! m = managed_ntps w !! m.
Proof.
  intros (w1 & w2 & Hprep & Hsp & Hc & _)%perform_stages Hne.
  assert (gate w1 = gate w ∧ managed_ntps w1 !! m = managed_ntps w !! m)
    as [Hg1 Hm1].
  { destruct Hprep as [[_ ->]|(st & _ & ->)]; simpl;
      by rewrite lookup_insert_ne. }
  eapply (complete_inline_ind
            (fun w0 => inline_gate n (length (gate w)) w0
                       ∧ managed_ntps w0 !! m = managed_ntps w !! m));
    [|..|exact Hc].
  - intros action w3 w4 [Hi Hm] Hf.
    destruct (finish_task_inline n _ action w3 w4 m Hi Hf) as [Hi' Hm'].
    split; [done|]. by rewrite Hm'.
  - split; [|by rewrite (spawn_frame _ _ _ _ Hsp Hne)].
    unfold inline_gate.
    destruct (spawn_gate _ _ _ Hsp) as [->|(t & Ht & ->)]; rewrite Hg1.
    + split; [lia|]. intros t Hl. apply lookup_lt_Some in Hl. lia.
    + split; [rewrite length_app; simpl; lia|].
      intros t0. rewrite lookup_app_r, Nat.sub_diag by done. simpl.
      by intros [= <-].
Qed.

(** X8. An event leaves the entries of the NTPs it is not about exactly as
    they were: a call, a notification or a completion for one NTP never
    changes the flags, the work, the promise or the subscription of another
    one, and a change of the leaders table changes no entry at all. *)
Theorem event_changes_only_its_ntp e w w' m :
  step e w = Ok w' → ¬ touches e w m →
  managed_ntps w' !! m = managed_ntps w !! m.
Proof.
  destruct e as [n pw early|n mid sought|actions|n term leader|i action|n leader];
    simpl; intros H Hm.
  - destruct (perform_partition_work n pw early w) as [[w2 p]|] eqn:Hp; [|done].
    simpl in H. injection H as <-. by eapply perform_frame.
  - injection H as <-. unfold abort_partition_work.
    destruct (managed_ntps w !! n); [|done]. destruct (_ && _); [|done].
    by apply unmanage_frame.
  - done.
  - by eapply handle_leadership_update_frame.
  - unfold finish_task in H. destruct (gate w !! i) as [t|] eqn:Hi;
      [|by injection H as <-].
    destruct (handle_operation_result _ _ _ _ w) as [w1|] eqn:Hh; [|done].
    simpl in H. injection H as <-. simpl.
    eapply handle_operation_result_frame; [exact Hh|].
    intros ->. apply Hm. by exists t.
  - by injection H as <-.
Qed.

Lemma event_changes_only_its_ntp_witness :
  managed_ntps aborted_worker !! mk_ntp "kafka" "payments" 3
  = managed_ntps leading_worker !! mk_ntp "kafka" "payments" 3.
Proof.
  apply (event_changes_only_its_ntp (ev_abort ntp_orders 7 prepared)
           leading_worker aborted_worker); [reflexivity|].
  simpl. discriminate.
Defined.

(** ** Repeating and combining operations *)

(** X9. Aborting twice is aborting once: the second
    [abort_partition_work] with the same arguments finds nothing to cancel
    and changes nothing. *)
Theorem abort_is_idempotent n mid sought w :
  abort_partition_work n mid sought (abort_partition_work n mid sought w)
  = abort_partition_work n mid sought w.
Proof.
  destruct (managed_ntps w !! n) as [st|] eqn:Hn.
  - destruct (bool_decide (migration_id (work st) = mid)
              && bool_decide (sought_state (work st) = sought)) eqn:E.
    + assert (abort_partition_work n mid sought w
              = unmanage_ntp n invalid_data_migration_state w) as ->
        by (unfold abort_partition_work; by rewrite Hn, E).
      unfold abort_partition_work.
      rewrite (unmanage_ntp_managed _ _ _ _ Hn). simpl.
      by rewrite lookup_delete_eq.
    + assert (abort_partition_work n mid sought w = w) as E0
        by (unfold abort_partition_work; by rewrite Hn, E).
      by rewrite !E0.
  - assert (abort_partition_work n mid sought w = w) as E0
      by (unfold abort_partition_work; by rewrite Hn).
    by rewrite !E0.
Qed.

Lemma spawn_keeps_is_leader it w w' st :
  spawn_work_if_leader it w = Ok w' → managed_ntps w !! it = Some st →
  ∃ st', managed_ntps w' !! it = Some st' ∧ is_leader st' = is_leader st.
Proof.
  unfold spawn_work_if_leader. intros H Hit. rewrite Hit in H.
  destruct (is_running st); simpl in H; [done|].
  destruct (is_leader st) eqn:Hl; simpl in H; [|injection H as <-; eauto].
  destruct (gate_closed w).
  - injection H as <-. simpl. rewrite lookup_insert_eq. eauto.
  - destruct (do_work_visit it _); simpl in H; [|done].
    injection H as <-. simpl. rewrite lookup_insert_eq. eauto.
Qed.

(** X10. A leadership notification repeated with the same value does
    nothing the second time: it spawns no second action and changes no
    flag. *)
Theorem leadership_update_is_idempotent n leader w w' :
  handle_leadership_update n leader w = Ok w' →
  handle_leadership_update n leader w' = Ok w'.
Proof.
  intros H. pose proof H as H0. unfold handle_leadership_update in H.
  destruct (managed_ntps w !! n) as [st|] eqn:Hn; [|by injection H as <-].
  destruct (bool_decide (is_leader st = leader)) eqn:E;
    [by injection H as <-|].
  assert (∃ st', managed_ntps w' !! n = Some st' ∧ is_leader st' = leader)
    as (st' & Hn' & Hl').
  { destruct (negb _).
    - eapply (spawn_keeps_is_leader _ _ _ (set_is_leader leader st)) in H
        as (st' & ? & ?); [eauto|].
      simpl. by rewrite lookup_insert_eq.
    - injection H as <-. simpl. rewrite lookup_insert_eq. eauto. }
  unfold handle_leadership_update. rewrite Hn'.
  by rewrite bool_decide_eq_true_2.
Qed.

Lemma leadership_update_is_idempotent_witness :
  handle_leadership_update ntp_orders false
    (mk_worker 1
       (mk_leaders {[ ntp_orders := 1%Z ]} {[ 0 := ntp_orders ]} 1)
       {[ ntp_orders := mk_ntp_state false true inbound_prepare 0 0 ]}
       [[]] [mk_task ntp_orders 7 prepared] false)
  = Ok (mk_worker 1
          (mk_leaders {[ ntp_orders := 1%Z ]} {[ 0 := ntp_orders ]} 1)
          {[ ntp_orders := mk_ntp_state false true inbound_prepare 0 0 ]}
          [[]] [mk_task ntp_orders 7 prepared] false).
Proof.
  exact (leadership_update_is_idempotent ntp_orders false leading_worker _ eq_refl).
Defined.

(** X11. [stop] may be called again: on a worker that manages no entry and
    whose gate is closed, as [stop] leaves it, the call changes nothing and
    returns without waiting. *)
Theorem stop_is_idempotent w :
  managed_ntps w = ∅ → gate_closed w = true →
  stop w = w
  ∧ stop_suspends w = false
  ∧ (∀ actions, stop_undisturbed actions w = Ok w)
  ∧ (∀ w', stop_completes w w' → w' = w).
Proof.
  intros Hm Hc.
  pose proof (stop_loop_nothing_managed w Hm) as Hl.
  assert (stop w = w) as Hs by (unfold stop; by rewrite Hl, Hc).
  assert (stop_suspends w = false) as Hn
    by (unfold stop_suspends; by rewrite Hl, Hc).
  split; [done|]. split; [done|]. split.
  - intros actions. unfold stop_undisturbed. by rewrite Hn, Hs.
  - intros w'. unfold stop_completes. by rewrite Hn, Hs.
Qed.

(** A second [stop] right after the first. *)
Lemma stop_is_idempotent_witness :
  stop (stop leading_worker) = stop leading_worker
  ∧ stop_suspends (stop leading_worker) = false
  ∧ (∀ actions, stop_undisturbed actions (stop leading_worker)
                = Ok (stop leading_worker))
  ∧ (∀ w', stop_completes (stop leading_worker) w' → w' = stop leading_worker).
Proof.
  exact (stop_is_idempotent (stop leading_worker) eq_refl eq_refl).
Defined.

Lemma watchers_unregister_fresh (lt : partition_leaders_table) n :
  leaders_wf lt →
  delete (next_notification_id lt) (<[next_notification_id lt := n]> (watchers lt))
  = watchers lt.
Proof.
  intros Hwf. rewrite delete_insert_eq. apply delete_id.
  destruct (watchers lt !! next_notification_id lt) as [m|] eqn:E; [|done].
  apply Hwf in E. lia.
Qed.

Lemma set_value_new_promise (ps : list (list errc)) ec :
  set_value (length ps) ec (ps ++ [[]]) = ps ++ [[ec]].
Proof.
  unfold set_value. induction ps as [|vs ps IH]; simpl; [done|].
  f_equal. apply IH.
Qed.

(** A call of [perform_partition_work] that returns the future of a
    promise returns in the state reached at the spawn, and the promise is
    that of the entry. *)
Lemma call_kept n early w1 st1 w' p :
  managed_ntps w1 !! n = Some st1 → is_running st1 = false →
  (w2 ← spawn_work_if_leader n w1; returning n early (length (gate w1)) w2)
  = Ok (w', future_of p) →
  w' = after_spawn n st1 w1 ∧ p = promise st1
  ∧ is_leader st1 && negb (gate_closed w1) && negb (legal_work (work st1)) = false.
Proof.
  intros Hn Hr Hcall.
  pose proof (perform_after_spawn n early w1 st1 Hn Hr) as Hspec.
  simpl in Hspec.
  destruct (is_leader st1 && negb (gate_closed w1) && negb (legal_work (work st1))).
  { destruct Hspec as (msg & Hf & _). congruence. }
  destruct Hspec as (w0 & _ & Hcall0 & Hcases).
  rewrite Hcall0 in Hcall. injection Hcall as <- Hfut.
  destruct Hcases as [->|(_ & ec & _ & ->)].
  - unfold future_at in Hfut. rewrite after_spawn_managed in Hfut.
    injection Hfut as <-. done.
  - unfold future_at in Hfut. simpl in Hfut.
    by rewrite unmanage_ntp_lookup in Hfut.
Qed.

(** X12. Work that is performed on an unmanaged NTP and then aborted with
    its own migration id and sought state leaves no trace in the
    bookkeeping.  Whenever the call of [perform_partition_work] returned
    the future of the entry it inserted (the action, if one was spawned, had
    not ended the entry inside the call), the abort restores the map of
    managed NTPs and the watchers of the leaders table to what they were
    before the call, and resolves that future with
    [invalid_data_migration_state].  The abort takes nothing out of the
    gate, and the completion of an action for the NTP is dropped when it
    comes. *)
Theorem perform_then_abort n pw early w w1 p :
  attainable w → managed_ntps w !! n = None →
  perform_partition_work n pw early w = Ok (w1, future_of p) →
  let w2 := abort_partition_work n (migration_id pw) (sought_state pw) w1 in
  managed_ntps w2 = managed_ntps w
  ∧ watchers (leaders_table w2) = watchers (leaders_table w)
  ∧ promises w !! p = None
  ∧ resolved_once w2 p invalid_data_migration_state
  ∧ gate w2 = gate w1
  ∧ ∀ i action t, gate w2 !! i = Some t → task_ntp t = n →
      finish_task i action w2 = Ok (set_gate (delete i (gate w2)) w2).
Proof.
  intros Ha Hn Hp.
  destruct (attainable_inv w Ha) as [Hinv _].
  rewrite (perform_partition_work_unmanaged _ _ _ _ Hn) in Hp.
  apply (call_kept n early (emplaced n pw w)
           (mk_ntp_state
              (bool_decide (Some (self w) = get_leader (leaders_table w) n))
              false pw (length (promises w))
              (next_notification_id (leaders_table w)))) in Hp
    as (-> & -> & _);
    [|unfold emplaced; simpl; by rewrite lookup_insert_eq|done].
  simpl. unfold abort_partition_work. rewrite after_spawn_managed. simpl.
  rewrite !bool_decide_eq_true_2 by done. simpl.
  unfold unmanage_ntp. rewrite after_spawn_managed. simpl.
  unfold resolved_once. simpl.
  rewrite insert_insert_eq, delete_insert_eq, delete_id by done.
  rewrite watchers_unregister_fresh by apply (inv_leaders_wf _ Hinv).
  rewrite set_value_new_promise.
  split_and!; try done.
  - by apply lookup_ge_None_2.
  - by rewrite lookup_app_r, Nat.sub_diag.
  - intros i action t Hi Ht. unfold finish_task. simpl. rewrite Hi. simpl.
    unfold handle_operation_result. simpl. by rewrite Ht, Hn.
Qed.

Lemma perform_then_abort_witness :
  let w2 := abort_partition_work ntp_orders 7 prepared leading_worker in
  managed_ntps w2 = ∅
  ∧ watchers (leaders_table w2) = ∅
  ∧ promises fresh_worker !! 0 = None
  ∧ resolved_once w2 0 invalid_data_migration_state
  ∧ gate w2 = gate leading_worker
  ∧ ∀ i action t, gate w2 !! i = Some t → task_ntp t = ntp_orders →
      finish_task i action w2 = Ok (set_gate (delete i (gate w2)) w2).
Proof.
  exact (perform_then_abort ntp_orders inbound_prepare [threw] fresh_worker
           leading_worker 0 (reachable_attainable _ fresh_worker_reachable)
           eq_refl eq_refl).
Defined.

(** X13. The course of successful work.  On a worker that has not been
    stopped and leads an unmanaged NTP, [perform_partition_work] with a
    legal combination spawns the action; when that action returns
    [success], the promise of the entry is resolved with [success], the
    entry and its watcher are gone and the gate is what it was, so the
    worker is back to its bookkeeping from before the call.  The worker ends
    in the same state whether the action finishes after the call has
    returned or inside it; in the second case the entry is gone by the time
    the call reads the future off it. *)
Theorem perform_then_success n pw w :
  attainable w → gate_closed w = false → legal_work pw = true →
  managed_ntps w !! n = None →
  get_leader (leaders_table w) n = Some (self w) →
  let p := length (promises w) in
  ∃ w1 w2,
    perform_partition_work n pw [] w = Ok (w1, future_of p)
    ∧ finish_task (length (gate w)) (returned success) w1 = Ok w2
    ∧ perform_partition_work n pw [returned success] w = Ok (w2, dangling)
    ∧ managed_ntps w2 = managed_ntps w
    ∧ watchers (leaders_table w2) = watchers (leaders_table w)
    ∧ gate w2 = gate w
    ∧ resolved_once w2 p success.
Proof.
  intros Ha Hc Hlegal Hn Hlead. simpl.
  destruct (attainable_inv w Ha) as [Hinv _].
  set (st1 := mk_ntp_state true false pw (length (promises w))
                (next_notification_id (leaders_table w))).
  assert (managed_ntps (emplaced n pw w) !! n = Some st1) as Hn1.
  { unfold emplaced. simpl. rewrite lookup_insert_eq.
    by rewrite Hlead, bool_decide_eq_true_2. }
  pose proof (spawn_idle_cases n (emplaced n pw w) st1 Hn1 eq_refl) as Hsp.
  simpl in Hsp. rewrite Hc, Hlegal in Hsp. simpl in Hsp.
  set (w1 := after_spawn n st1 (emplaced n pw w)) in *.
  assert (gate w1 = gate w ++ [task_of n st1]) as Hg1
    by (unfold w1, after_spawn; simpl; by rewrite Hc).
  assert (finish_task (length (gate w)) (returned success) w1
          = Ok (set_gate (gate w) (unmanage_ntp n success w1))) as Hfin.
  { rewrite (finish_task_spawned n (length (gate w)) (returned success) w1
               (set_is_running true st1));
      [|apply after_spawn_managed|done|done|exact Hc|exact Hlegal
       |rewrite Hg1; by rewrite lookup_app_r, Nat.sub_diag
       |rewrite Hg1, length_app; simpl; lia].
    change (terminal (do_work_catch (returned success))) with true. cbv iota.
    by rewrite Hg1, delete_middle, app_nil_r. }
  pose proof (after_spawn_managed n st1 (emplaced n pw w)) as Hm1.
  assert (delete n (managed_ntps w1) = managed_ntps w) as Hmd.
  { unfold w1, after_spawn, emplaced. simpl.
    by rewrite insert_insert_eq, delete_insert_eq, delete_id. }
  assert (watchers (leaders_table w1)
          = <[next_notification_id (leaders_table w) := n]>
              (watchers (leaders_table w))) as Hw1 by done.
  assert (promises w1 = promises w ++ [[]]) as Hp1 by done.
  fold w1 in Hm1. clearbody w1.
  pose proof (unmanage_ntp_managed n success w1 _ Hm1) as Hun.
  simpl in Hun.
  exists w1, (set_gate (gate w) (unmanage_ntp n success w1)).
  rewrite !(perform_partition_work_unmanaged _ _ _ _ Hn), Hsp. simpl.
  unfold returning. simpl. rewrite Hfin. simpl.
  unfold future_at. rewrite Hm1. simpl. rewrite Hun. simpl.
  rewrite Hmd, Hn.
  split; [done|]. split; [done|]. split; [done|]. split; [done|].
  unfold resolved_once, unregister_leadership_change_notification. simpl.
  rewrite Hw1, Hp1, set_value_new_promise.
  rewrite watchers_unregister_fresh by apply (inv_leaders_wf _ Hinv).
  split; [done|]. split; [done|].
  by rewrite lookup_app_r, Nat.sub_diag.
Qed.

Lemma perform_then_success_witness :
  ∃ w1 w2,
    perform_partition_work ntp_orders inbound_prepare [] fresh_worker
      = Ok (w1, future_of 0)
    ∧ finish_task 0 (returned success) w1 = Ok w2
    ∧ perform_partition_work ntp_orders inbound_prepare [returned success]
        fresh_worker = Ok (w2, dangling)
    ∧ managed_ntps w2 = ∅
    ∧ watchers (leaders_table w2) = ∅
    ∧ gate w2 = []
    ∧ resolved_once w2 0 success.
Proof.
  exact (perform_then_success ntp_orders inbound_prepare fresh_worker
           (reachable_attainable _ fresh_worker_reachable)
           eq_refl eq_refl eq_refl eq_refl).
Defined.

(** What a call of [perform_partition_work] on a managed NTP returns in. *)
Lemma perform_managed_cases n pw early w st w1 f :
  managed_ntps w !! n = Some st →
  perform_partition_work n pw early w = Ok (w1, f) →
  let st1 := mk_ntp_state (is_leader st) false pw (length (promises w))
               (leadership_subscription st) in
  let w2 := after_spawn n st1 (reused n pw st w) in
  (w1 = w2 ∧ f = future_of (length (promises w)))
  ∨ (∃ ec, w1 = set_gate (gate w) (unmanage_ntp n ec w2) ∧ f = dangling).
Proof.
  intros Hn Hp. simpl.
  rewrite (perform_partition_work_managed _ _ _ _ _ Hn) in Hp.
  set (st1 := mk_ntp_state (is_leader st) false pw (length (promises w))
                (leadership_subscription st)).
  assert (managed_ntps (reused n pw st w) !! n = Some st1) as Hn1
    by (unfold reused; simpl; by rewrite lookup_insert_eq).
  pose proof (perform_after_spawn n early (reused n pw st w) st1 Hn1 eq_refl)
    as Hspec.
  simpl in Hspec.
  destruct (is_leader st && negb (gate_closed w) && negb (legal_work pw)).
  { destruct Hspec as (msg & Hf & _). congruence. }
  destruct Hspec as (w0 & _ & Hcall0 & Hcases).
  rewrite Hcall0 in Hp. injection Hp as <- <-.
  destruct Hcases as [->|(_ & ec & _ & ->)]; [left|right].
  - split; [done|]. unfold future_at. by rewrite after_spawn_managed.
  - exists ec. split; [done|]. unfold future_at. simpl.
    by rewrite unmanage_ntp_lookup.
Qed.

(** X14. When the work of an entry is replaced by work with another
    migration id or another sought state, the action spawned for the
    earlier work can no longer affect the entry: it is still in the gate
    when [perform_partition_work] returns, and whatever it ends with, its
    completion only takes it out of the gate.  If the call returned the
    future of a promise, that promise is unresolved. *)
Theorem replaced_work_ignores_earlier_action n pw early w st i action w1 f :
  attainable w → managed_ntps w !! n = Some st →
  gate w !! i = Some (task_of n st) →
  (migration_id pw ≠ migration_id (work st)
   ∨ sought_state pw ≠ sought_state (work st)) →
  perform_partition_work n pw early w = Ok (w1, f) →
  gate w1 !! i = Some (task_of n st)
  ∧ finish_task i action w1 = Ok (set_gate (delete i (gate w1)) w1)
  ∧ ∀ p, f = future_of p → unresolved w1 p.
Proof.
  intros Ha Hn Hi Hids Hp.
  destruct (attainable_inv w Ha) as [Hinv _].
  pose proof (inv_unresolved _ Hinv n st Hn) as Hun.
  pose proof (lookup_lt_Some _ _ _ Hun) as Hlt.
  destruct (perform_managed_cases n pw early w st w1 f Hn Hp)
    as [[-> ->]|(ec & -> & ->)].
  - assert (gate (after_spawn n
                    (mk_ntp_state (is_leader st) false pw (length (promises w))
                       (leadership_subscription st))
                    (reused n pw st w)) !! i = Some (task_of n st)) as Hi1.
    { unfold after_spawn. simpl.
      destruct (is_leader st && negb (gate_closed w)); [|done].
      by apply lookup_app_l_Some. }
    split; [done|]. split.
    + unfold finish_task. rewrite Hi1. simpl.
      unfold handle_operation_result. rewrite after_spawn_managed. simpl.
      assert (bool_decide (migration_id pw ≠ migration_id (work st))
              || bool_decide (sought_state pw ≠ sought_state (work st)) = true)
        as ->; [|done].
      destruct Hids as [H|H].
      * by rewrite (bool_decide_eq_true_2 _ H).
      * by rewrite (bool_decide_eq_true_2 _ H), orb_true_r.
    + intros p [= <-]. unfold unresolved. simpl.
      by rewrite lookup_app_r, length_set_value, Nat.sub_diag
        by (rewrite length_set_value; lia).
  - split; [done|]. split; [|done].
    unfold finish_task. simpl. rewrite Hi. simpl.
    unfold handle_operation_result. simpl.
    by rewrite unmanage_ntp_lookup.
Qed.

Lemma replaced_work_ignores_earlier_action_witness :
  gate superseded_worker !! 0 = Some (mk_task ntp_orders 7 prepared)
  ∧ finish_task 0 threw superseded_worker = Ok (set_gate [] superseded_worker)
  ∧ ∀ p, dangling = future_of p → unresolved superseded_worker p.
Proof.
  apply (replaced_work_ignores_earlier_action ntp_orders outbound_execute
           [returned success] leading_worker leading_entry 0 threw
           superseded_worker dangling
           (reachable_attainable _ leading_worker_reachable) eq_refl eq_refl).
  - left. simpl. lia.
  - reflexivity.
Defined.

(** X15. The worker tells the completions of two actions for one NTP apart
    by migration id and sought state only.  When the work of an entry is
    replaced by work with the same migration id and sought state, and the
    call of [perform_partition_work] returns the future of the new promise,
    the completion of the earlier action counts for the new work: if it is
    [success], the new future is resolved with [success] and the entry is
    unmanaged, while the action spawned for the new work (one was spawned
    if the entry leads and the gate is open) is still in the gate. *)
Theorem same_ids_take_earlier_completion n pw early w st i w1 p :
  attainable w → managed_ntps w !! n = Some st →
  gate w !! i = Some (task_of n st) →
  migration_id pw = migration_id (work st) →
  sought_state pw = sought_state (work st) →
  perform_partition_work n pw early w = Ok (w1, future_of p) →
  ∃ w2,
    finish_task i (returned success) w1 = Ok w2
    ∧ managed_ntps w2 !! n = None
    ∧ resolved_once w2 p success
    ∧ (is_leader st && negb (gate_closed w) = true →
       mk_task n (migration_id pw) (sought_state pw) ∈ gate w2).
Proof.
  intros Ha Hn Hi Hmid Hs Hp.
  destruct (attainable_inv w Ha) as [Hinv _].
  pose proof (worker_inv_perform _ _ _ _ _ _ Hinv Hp) as Hinv1.
  destruct (perform_managed_cases n pw early w st w1 _ Hn Hp)
    as [[-> Hf]|(ec & _ & ?)]; [|done].
  injection Hf as ->.
  set (st1 := mk_ntp_state (is_leader st) false pw (length (promises w))
                (leadership_subscription st)) in *.
  set (w1 := after_spawn n st1 (reused n pw st w)) in *.
  pose proof (after_spawn_managed n st1 (reused n pw st w)) as Hn1.
  fold w1 in Hn1.
  destruct (handle_operation_result_terminal n success w1 _ Hinv1 Hn1 eq_refl)
    as (w' & Hres & Hm & Hp' & _ & Hg & _).
  assert (gate w1 !! i = Some (task_of n st)) as Hi1.
  { unfold w1, after_spawn. simpl.
    destruct (is_leader st && negb (gate_closed w)); [|done].
    by apply lookup_app_l_Some. }
  exists (set_gate (delete i (gate w')) w'). split_and!.
  - unfold finish_task. rewrite Hi1. simpl.
    simpl in Hres. rewrite Hmid, Hs in Hres. by rewrite Hres.
  - simpl. by rewrite Hm, lookup_delete_eq.
  - exact Hp'.
  - intros Hl. simpl. rewrite Hg. unfold w1, after_spawn. simpl.
    rewrite Hl.
    apply elem_of_delete_last. by eapply lookup_lt_Some.
Qed.

Lemma same_ids_take_earlier_completion_witness :
  ∃ w2,
    finish_task 0 (returned success)
      (mk_worker 1
         (mk_leaders {[ ntp_orders := 1%Z ]} {[ 0 := ntp_orders ]} 1)
         {[ ntp_orders := mk_ntp_state true true inbound_prepare 1 0 ]}
         [[invalid_data_migration_state]; []]
         [mk_task ntp_orders 7 prepared; mk_task ntp_orders 7 prepared] false)
    = Ok w2
    ∧ managed_ntps w2 !! ntp_orders = None
    ∧ resolved_once w2 1 success
    ∧ (true = true → mk_task ntp_orders 7 prepared ∈ gate w2).
Proof.
  exact (same_ids_take_earlier_completion ntp_orders inbound_prepare
           [returned transport_failure] leading_worker leading_entry 0 _ 1
           (reachable_attainable _ leading_worker_reachable)
           eq_refl eq_refl eq_refl eq_refl eq_refl).
Defined.
